(** * mystl: a growable array ([vector.h]) and a doubly-linked list ([list.h])

    Shallow embedding of the two containers and the properties their
    specification states about them.

    - [size_t] is a 64-bit unsigned integer: a [Z] in [0, 2^64) whose
      arithmetic wraps ([wrap]).
    - A member function is a function from the object's state to an
      [outcome]: normal return, a C++ exception, undefined behaviour
      (a slot outside the buffer, a freed buffer, a null or freed node), or
      the loop bound of the model exhausted.
    - The [const T&] argument of [push_back], [push_back_incremental] and
      [resize] of the vector is a reference ([cref]), to an object of the
      caller or to a slot of the vector's own buffer: these functions may
      free the buffer before they read the argument.
    - The source assumes that allocation never fails; [new] always
      succeeds here. *)

From stdpp Require Import base gmap list.
From Stdlib Require Import ZArith Lia.

Local Open Scope Z_scope.
Local Set Warnings "-clear-no-such-hyp".

(** ** Outcomes of a call *)

Inductive exception : Type :=
| out_of_range.   (* std::out_of_range("Invalid Array Access") *)

Inductive outcome (A : Type) : Type :=
| Ok (a : A)              (* normal return *)
| Throw (e : exception)   (* an exception leaves the function *)
| Undef                   (* undefined behaviour *)
| Timeout.                (* loop bound of the model exhausted *)

Arguments Ok {A} a.
Arguments Throw {A} e.
Arguments Undef {A}.
Arguments Timeout {A}.

Global Instance outcome_ret : MRet outcome := @Ok.

Global Instance outcome_bind : MBind outcome := λ A B f m,
  match m with
  | Ok a => f a
  | Throw e => Throw e
  | Undef => Undef
  | Timeout => Timeout
  end.

(** [while (cond) body], at most [fuel] iterations. *)
Fixpoint while {S : Type} (fuel : nat) (cond : S → bool)
    (body : S → outcome S) (s : S) : outcome S :=
  if cond s then
    match fuel with
    | O => Timeout
    | S fuel' => s' ← body s; while fuel' cond body s'
    end
  else Ok s.

(** ** Machine integers *)

Definition size_max : Z := 2 ^ 64.

(** Arithmetic on [size_t] is modulo [2^64]. *)
Definition wrap (z : Z) : Z := z mod size_max.

(** Conversion of a [size_t] to a 32-bit [int] (two's complement). *)
Definition to_int (z : Z) : Z := (z + 2 ^ 31) mod 2 ^ 32 - 2 ^ 31.

(** The element type must be default-constructible. [T_default] is the
    value-initialised [T()]. [new T[c]] default-initialises its slots
    instead: for a class type the default constructor runs, for a scalar
    type such as [int] the slots are left uninitialised. [T_new j] is what
    slot [j] of a fresh array holds; nothing is assumed about it. *)
Class DefaultConstructible (T : Type) := {
  T_default : T;
  T_new : nat → T
}.

Global Instance Z_default : DefaultConstructible Z :=
  {| T_default := 0; T_new := λ _, 0 |}.

(** An [int] whose fresh arrays hold values other than [int()]. *)
Definition Z_uninitialised : DefaultConstructible Z :=
  {| T_default := 0; T_new := λ j, -1 - Z.of_nat j |}.

(** ** vector.h *)

Module vector.
Section vector.
Context {T : Type} `{DefaultConstructible T}.

(** [T* t; size_t cap; size_t sz]. The buffer [t] is the list of its
    slots; its length is the allocated length. *)
Record vector : Type := Vector { t : list T; cap : Z; sz : Z }.

(** An iterator is a [T*]; it is modelled by its offset from [t]. *)
Definition iterator : Type := Z.

(** [new T[c]]: [c] default-initialised slots. *)
Definition new_array (c : Z) : list T := T_new <$> seq 0 (Z.to_nat c).

(** The argument of a [const T&] parameter refers to an object: one
    outside the buffer of the vector (a temporary, a variable of the
    caller), or a slot of the buffer itself, as in [v.push_back(v[0])]. *)
Inductive cref : Type :=
| Obj (x : T)    (* an object outside the buffer, which holds [x] *)
| Slot (j : Z).  (* the slot [t[j]] of the buffer *)

(** [b[i]] read; outside the buffer the behaviour is undefined. *)
Definition load (b : list T) (i : Z) : outcome T :=
  if decide (0 ≤ i < Z.of_nat (length b)) then
    match b !! Z.to_nat i with
    | Some x => Ok x
    | None => Undef
    end
  else Undef.

(** [b[i] = x]; outside the buffer the behaviour is undefined. *)
Definition store (b : list T) (i : Z) (x : T) : outcome (list T) :=
  if decide (0 ≤ i < Z.of_nat (length b)) then Ok (<[Z.to_nat i := x]> b)
  else Undef.

(** [for (size_t i = lo; i < lo + k; i++) dst[i] = x;] *)
Fixpoint fill_slots (k : nat) (i : Z) (x : T) (dst : list T)
    : outcome (list T) :=
  match k with
  | O => Ok dst
  | S k' => dst' ← store dst i x; fill_slots k' (i + 1) x dst'
  end.

(** [for (size_t i = lo; i < lo + k; i++) dst[i] = src[i];] *)
Fixpoint copy_slots (k : nat) (i : Z) (src dst : list T)
    : outcome (list T) :=
  match k with
  | O => Ok dst
  | S k' =>
      x ← load src i;
      dst' ← store dst i x;
      copy_slots k' (i + 1) src dst'
  end.

(** [vector(size_t n = 0, const T& val = T())] *)
Definition create (n : Z) (val : T) : outcome vector :=
  let c := Z.max 10 (wrap (2 * n)) in
  b ← fill_slots (Z.to_nat n) 0 val (new_array c);
  Ok {| t := b; cap := c; sz := n |}.

(** [vector(const vector& v)]: copies all [cap] slots. *)
Definition copy (v : vector) : outcome vector :=
  b ← copy_slots (Z.to_nat (cap v)) 0 (t v) (new_array (cap v));
  Ok {| t := b; cap := cap v; sz := sz v |}.

(** [operator=(const vector& v)]. [rhs = None] is self-assignment
    ([&v == this]); [rhs = Some v] is assignment from another object. *)
Definition assign (rhs : option vector) (self : vector) : outcome vector :=
  match rhs with
  | None => Ok self
  | Some v =>
      b ← copy_slots (Z.to_nat (sz v)) 0 (t v) (new_array (cap v));
      Ok {| t := b; cap := cap v; sz := sz v |}
  end.

Definition begin_ (v : vector) : iterator := 0.
Definition end_ (v : vector) : iterator := sz v.

Definition size (v : vector) : Z := sz v.
Definition capacity (v : vector) : Z := cap v.
Definition empty (v : vector) : bool := sz v =? 0.

(** [reserve(size_t c)] *)
Definition reserve (c : Z) (v : vector) : outcome vector :=
  if cap v <? c then
    tmp ← copy_slots (Z.to_nat (sz v)) 0 (t v) (new_array c);
    Ok {| t := tmp; cap := c; sz := sz v |}
  else Ok v.

(** [at(size_t i)]: the result and the vector afterwards. *)
Definition at_ (i : Z) (v : vector) : outcome T * vector :=
  (if (i <? 0) || (sz v <=? i) then Throw out_of_range else load (t v) i, v).

(** [operator[](size_t i)]: no range check. *)
Definition index (i : Z) (v : vector) : outcome T := load (t v) i.

(** [front()] is [t[0]] and [back()] is [t[sz-1]]. *)
Definition front (v : vector) : outcome T := load (t v) 0.
Definition back (v : vector) : outcome T := load (t v) (wrap (sz v - 1)).

(** The value read through the argument [val] of a call entered on the
    vector [v0], once the vector has become [v]. [reserve] runs
    [delete[] t] exactly when it raises the capacity: a reference to a
    slot of the buffer then refers to freed storage. *)
Definition read (val : cref) (v0 v : vector) : outcome T :=
  match val with
  | Obj x => Ok x
  | Slot j => if cap v0 <? cap v then Undef else load (t v) j
  end.

(** [push_back(const T& val)]: doubling strategy. [val] is read in
    [t[sz] = val], after [reserve]. *)
Definition push_back (val : cref) (v : vector) : outcome vector :=
  v1 ← (if sz v =? cap v then reserve (wrap (cap v * 2)) v else Ok v);
  x ← read val v v1;
  b ← store (t v1) (sz v1) x;
  Ok {| t := b; cap := cap v1; sz := wrap (sz v1 + 1) |}.

(** [push_back_incremental(const T& val)]: incremental strategy. *)
Definition push_back_incremental (val : cref) (v : vector) : outcome vector :=
  v1 ← (if sz v =? cap v then reserve (wrap (cap v + 1)) v else Ok v);
  x ← read val v v1;
  b ← store (t v1) (sz v1) x;
  Ok {| t := b; cap := cap v1; sz := wrap (sz v1 + 1) |}.

(** [pop_back()] *)
Definition pop_back (v : vector) : outcome vector :=
  if negb (empty v) then
    b ← store (t v) (wrap (sz v - 1)) T_default;
    Ok {| t := b; cap := cap v; sz := wrap (sz v - 1) |}
  else Ok v.

(** [resize(size_t n, const T& val = T())]. Each [push_back(val)]
    passes the reference on. *)
Definition resize (n : Z) (val : cref) (v : vector) : outcome vector :=
  v1 ← while (Z.to_nat (sz v)) (λ v, n <? sz v) pop_back v;
  while (Z.to_nat n) (λ v, sz v <? n) (push_back val) v1.

(** One iteration of the loop of [insert], on [tmp], [indx] and the
    vector. The argument of [push_back] is a reference to the slot
    [t[tmp]]. *)
Definition insert_step (st : Z * iterator * vector)
    : outcome (Z * iterator * vector) :=
  let '(tmp, indx, v) := st in
  let tmp := wrap (tmp - 1) in          (* --tmp; *)
  v ← push_back (Slot tmp) v;           (* push_back(t[tmp]); *)
  let indx := indx - 1 in               (* --indx; *)
  Ok (tmp, indx, {| t := t v; cap := cap v; sz := wrap (sz v - 1) |}).

(** [insert(iterator i, const T& val)] *)
Definition insert (i : iterator) (val : T) (v : vector)
    : outcome (iterator * vector) :=
  if sz v <? cap v then
    '(tmp, _, v1) ← while (S (Z.to_nat (sz v)))
                      (λ st, negb (i =? st.1.2)) insert_step (sz v, sz v, v);
    b ← store (t v1) tmp val;           (* t[tmp] = val; *)
    Ok (i, {| t := b; cap := cap v1; sz := wrap (sz v1 + 1) |})
  else Ok (i, v).

(** The first loop of [erase]: [while (i != indx) {++tmp; ++indx;}].
    A pointer may not move beyond one past the end of the buffer. *)
Definition erase_seek (c : Z) (st : Z * iterator) : outcome (Z * iterator) :=
  let '(tmp, indx) := st in
  if decide (indx + 1 ≤ c) then Ok (wrap (tmp + 1), indx + 1) else Undef.

(** [for (size_t j = tmp; j < cap - 1; ++j) t[j] = t[j + 1];] *)
Definition erase_shift (st : Z * list T) : outcome (Z * list T) :=
  let '(j, b) := st in
  x ← load b (wrap (j + 1));
  b' ← store b j x;
  Ok (wrap (j + 1), b').

(** [erase(iterator i)] *)
Definition erase (i : iterator) (v : vector) : outcome (iterator * vector) :=
  if negb (empty v) then
    '(tmp, _) ← while (S (Z.to_nat (cap v)))
                  (λ st, negb (i =? st.2)) (erase_seek (cap v)) (0, 0);
    '(_, b) ← while (Z.to_nat (cap v))
                (λ st, st.1 <? wrap (cap v - 1)) erase_shift (tmp, t v);
    Ok (i, {| t := b; cap := cap v; sz := wrap (sz v - 1) |})
  else Ok (i, v).

(** [clear()]: [for (int i = sz; i > 0; --i) pop_back();] *)
Definition clear (v : vector) : outcome vector :=
  '(_, v') ← while (Z.to_nat (to_int (sz v))) (λ st, 0 <? st.1)
               (λ st, v' ← pop_back st.2; Ok (st.1 - 1, v'))
               (to_int (sz v), v);
  Ok v'.

(** The live elements: slots [0 .. sz - 1]. *)
Definition elements (v : vector) : list T := take (Z.to_nat (sz v)) (t v).

(** Representation invariant: the buffer has [cap] slots, of which the
    first [sz] are live, and [cap] is a positive [size_t]. *)
Definition wf (v : vector) : Prop :=
  Z.of_nat (length (t v)) = cap v ∧ 0 ≤ sz v ≤ cap v ∧ 0 < cap v < size_max.

(** *** Client programs

    A sequence of [push_back] and [pop_back] calls of a client that
    pushes values of its own: the argument of [Push val] is an object
    outside the buffer, which holds [val]. *)
Inductive op : Type :=
| Push (val : T)
| Pop.

Definition step (o : op) (v : vector) : outcome vector :=
  match o with
  | Push val => push_back (Obj val) v
  | Pop => pop_back v
  end.

Fixpoint run (ops : list op) (v : vector) : outcome vector :=
  match ops with
  | [] => Ok v
  | o :: ops' => v' ← step o v; run ops' v'
  end.

Definition is_push (o : op) : bool :=
  match o with Push _ => true | Pop => false end.

(** Number of pushes and of pops in a sequence. *)
Definition pushes (ops : list op) : Z :=
  Z.of_nat (length (filter is_push ops)).
Definition pops (ops : list op) : Z :=
  Z.of_nat (length (filter (λ o, negb (is_push o)) ops)).

(** A counter that follows the sequence from [s] and stays at [0] when
    it is popped at [0]. *)
Fixpoint counter (s : Z) (ops : list op) : Z :=
  match ops with
  | [] => s
  | Push _ :: ops' => counter (s + 1) ops'
  | Pop :: ops' => counter (Z.max 0 (s - 1)) ops'
  end.

(** No [Pop] of the sequence meets a counter at [0]. *)
Fixpoint no_pop_at_zero (s : Z) (ops : list op) : Prop :=
  match ops with
  | [] => True
  | Push _ :: ops' => no_pop_at_zero (s + 1) ops'
  | Pop :: ops' => 0 < s ∧ no_pop_at_zero (s - 1) ops'
  end.

(** The modifiers of the class, apart from the copy assignment. *)
Inductive modifier : Type :=
| Reserve (c : Z)
| Resize (n : Z) (val : cref)
| PushBack (val : cref)
| PushBackIncremental (val : cref)
| PopBack
| Insert (i : iterator) (val : T)
| Erase (i : iterator)
| Clear.

Definition modify (m : modifier) (v : vector) : outcome vector :=
  match m with
  | Reserve c => reserve c v
  | Resize n val => resize n val v
  | PushBack val => push_back val v
  | PushBackIncremental val => push_back_incremental val v
  | PopBack => pop_back v
  | Insert i val => '(_, v') ← insert i val v; Ok v'
  | Erase i => '(_, v') ← erase i v; Ok v'
  | Clear => clear v
  end.

(** The argument is an object outside the buffer of the vector. *)
Definition outside (val : cref) : Prop :=
  match val with Obj _ => True | Slot _ => False end.

(** Arguments for which a modifier is defined on a vector [v]: sizes and
    capacities are [size_t] values, a doubled capacity included,
    iterators point into the buffer of [v], and a value to add is passed
    in an object outside this buffer. *)
Definition admissible (m : modifier) (v : vector) : Prop :=
  match m with
  | Reserve c => 0 ≤ c < size_max
  | Resize n val => outside val ∧ 0 ≤ n ∧ 2 * n ≤ size_max
  | PushBack val => outside val ∧ (sz v = cap v → 2 * cap v < size_max)
  | PushBackIncremental val =>
      outside val ∧ (sz v = cap v → cap v + 1 < size_max)
  | PopBack => True
  | Insert i _ => sz v < cap v → 0 ≤ i ≤ sz v
  | Erase i => 0 < sz v → 0 ≤ i ≤ cap v
  | Clear => True
  end.

End vector.
Arguments vector T : clear implicits.
Arguments cref T : clear implicits.
Arguments op T : clear implicits.
Arguments modifier T : clear implicits.

(** The vector [1, 2, 3] of capacity 10, and a full vector of capacity 10. *)
Definition v123 : vector Z :=
  {| t := [1; 2; 3; 0; 0; 0; 0; 0; 0; 0]; cap := 10; sz := 3 |}.
Definition vfull : vector Z :=
  {| t := [7; 7; 7; 7; 7; 8; 8; 8; 8; 8]; cap := 10; sz := 10 |}.
End vector.

(** ** list.h *)

Module list_.
Section list_.
Context {T : Type} `{DefaultConstructible T}.

(** A [node*]: the address of a node, or [NULL]. *)
Definition ptr : Type := option positive.

(** [struct node { T t; node* prev; node* next; }] *)
Record node : Type := Node { t : T; prev : ptr; next : ptr }.

(** [node* head; node* tail; size_t sz], together with the nodes that are
    allocated: [mem] maps the address of every live node to its
    contents. *)
Record list_ : Type :=
  List { mem : gmap positive node; head : ptr; tail : ptr; sz : Z }.

(** A [list_iterator] holds a [node* n]. *)
Definition iterator : Type := ptr.

(** [new node(val, p, n)]: a fresh address. *)
Definition new_node (nd : node) (h : gmap positive node)
    : positive * gmap positive node :=
  let a := fresh (dom h) in (a, <[a := nd]> h).

(** [*p] for a [node* p]: undefined for [NULL] and for a freed node. *)
Definition deref (h : gmap positive node) (p : ptr) : outcome node :=
  match p with
  | Some a => match h !! a with Some nd => Ok nd | None => Undef end
  | None => Undef
  end.

(** [p->prev = q] *)
Definition set_prev (h : gmap positive node) (p q : ptr)
    : outcome (gmap positive node) :=
  match p with
  | Some a =>
      nd ← deref h p;
      Ok (<[a := {| t := t nd; prev := q; next := next nd |}]> h)
  | None => Undef
  end.

(** [p->next = q] *)
Definition set_next (h : gmap positive node) (p q : ptr)
    : outcome (gmap positive node) :=
  match p with
  | Some a =>
      nd ← deref h p;
      Ok (<[a := {| t := t nd; prev := prev nd; next := q |}]> h)
  | None => Undef
  end.

(** [delete p]: nothing for [NULL], undefined for a freed node. *)
Definition delete_node (h : gmap positive node) (p : ptr)
    : outcome (gmap positive node) :=
  match p with
  | Some a => _ ← deref h p; Ok (delete a h)
  | None => Ok h
  end.

Definition begin_ (l : list_) : iterator := head l.
Definition end_ (l : list_) : iterator := None.

Definition size (l : list_) : Z := sz l.
Definition empty (l : list_) : bool := sz l =? 0.

(** [front()] is [head->t] and [back()] is [tail->t]. *)
Definition front (l : list_) : outcome T := nd ← deref (mem l) (head l); Ok (t nd).
Definition back (l : list_) : outcome T := nd ← deref (mem l) (tail l); Ok (t nd).

(** [list_iterator]: [*it] is [n->t], [++it] sets [n = n->next] and
    [--it] sets [n = n->prev]. *)
Definition star (h : gmap positive node) (it : iterator) : outcome T :=
  nd ← deref h it; Ok (t nd).
Definition incr (h : gmap positive node) (it : iterator) : outcome iterator :=
  nd ← deref h it; Ok (next nd).
Definition decr (h : gmap positive node) (it : iterator) : outcome iterator :=
  nd ← deref h it; Ok (prev nd).

(** [++it], [n] times. *)
Fixpoint advance (h : gmap positive node) (n : nat) (it : iterator)
    : outcome iterator :=
  match n with
  | O => Ok it
  | S n' => it' ← incr h it; advance h n' it'
  end.

(** [push_front(const T& val)] *)
Definition push_front (val : T) (l : list_) : outcome list_ :=
  if empty l then
    let '(midNode, h) := new_node (Node val None None) (mem l) in
    Ok {| mem := h; head := Some midNode; tail := Some midNode;
          sz := wrap (sz l + 1) |}
  else
    let '(midNode, h) := new_node (Node val None (head l)) (mem l) in
    h ← set_prev h (head l) (Some midNode);      (* head->prev = midNode; *)
    Ok {| mem := h; head := Some midNode; tail := tail l;
          sz := wrap (sz l + 1) |}.

(** [pop_front()] *)
Definition pop_front (l : list_) : outcome list_ :=
  if empty l then Ok l
  else if sz l =? 1 then
    h ← delete_node (mem l) (head l);            (* delete head; *)
    Ok {| mem := h; head := None; tail := None; sz := wrap (sz l - 1) |}
  else
    nd ← deref (mem l) (head l);
    let head' := next nd in                      (* head = head->next; *)
    nd' ← deref (mem l) head';
    h ← delete_node (mem l) (prev nd');          (* delete head->prev; *)
    h ← set_prev h head' None;                   (* head->prev = NULL; *)
    Ok {| mem := h; head := head'; tail := tail l; sz := wrap (sz l - 1) |}.

(** [push_back(const T& val)] *)
Definition push_back (val : T) (l : list_) : outcome list_ :=
  if empty l then
    let '(midNode, h) := new_node (Node val None None) (mem l) in
    Ok {| mem := h; head := Some midNode; tail := Some midNode;
          sz := wrap (sz l + 1) |}
  else
    let '(midNode, h) := new_node (Node val (tail l) None) (mem l) in
    h ← set_next h (tail l) (Some midNode);      (* tail->next = midNode; *)
    Ok {| mem := h; head := head l; tail := Some midNode;
          sz := wrap (sz l + 1) |}.

(** [pop_back()] *)
Definition pop_back (l : list_) : outcome list_ :=
  if empty l then Ok l
  else if sz l =? 1 then
    h ← delete_node (mem l) (tail l);            (* delete tail; *)
    Ok {| mem := h; head := None; tail := None; sz := wrap (sz l - 1) |}
  else
    nd ← deref (mem l) (tail l);
    let tail' := prev nd in                      (* tail = tail->prev; *)
    nd' ← deref (mem l) tail';
    h ← delete_node (mem l) (next nd');          (* delete tail->next; *)
    h ← set_next h tail' None;                   (* tail->next = NULL; *)
    Ok {| mem := h; head := head l; tail := tail'; sz := wrap (sz l - 1) |}.

(** [list(size_t n = 0, const T& val = T())] *)
Definition create (n : Z) (val : T) : outcome list_ :=
  while (Z.to_nat n) (λ l, sz l <? n) (push_back val)
    {| mem := ∅; head := None; tail := None; sz := 0 |}.

(** The loop of the copy constructor and of the assignment:
    [for (it = v.cbegin(); it != v.cend(); ++it) push_back( *it);]
    The nodes of [v] are read in [src l], which is the memory of [v], or
    that of the list itself when [v] is the list itself. *)
Definition append_step (src : list_ → gmap positive node)
    (st : iterator * list_) : outcome (iterator * list_) :=
  let '(it, l) := st in
  nd ← deref (src l) it;
  l' ← push_back (t nd) l;                       (* push_back( *it); *)
  nd ← deref (src l') it;
  Ok (next nd, l').                              (* ++it *)

(** [list(const list& v)] *)
Definition copy (v : list_) : outcome list_ :=
  '(_, l) ← while (S (base.size (mem v))) (λ st, bool_decide (st.1 ≠ None))
              (append_step (λ _, mem v))
              (head v, {| mem := ∅; head := None; tail := None; sz := 0 |});
  Ok l.

(** [clear()]: [for (it = begin(); it != end(); ++it) pop_front();] *)
Definition clear_step (st : iterator * list_) : outcome (iterator * list_) :=
  let '(it, l) := st in
  l' ← pop_front l;
  nd ← deref (mem l') it;                        (* ++it: n = n->next *)
  Ok (next nd, l').

Definition clear (l : list_) : outcome list_ :=
  '(_, l') ← while (S (base.size (mem l))) (λ st, bool_decide (st.1 ≠ None))
               clear_step (head l, l);
  Ok l'.

(** [operator=(const list& v)]. [rhs = None] is self-assignment;
    [rhs = Some v] is assignment from another object. *)
Definition assign (rhs : option list_) (self : list_) : outcome list_ :=
  l ← clear self;
  let src := match rhs with Some v => λ _, mem v | None => mem end in
  let first := match rhs with Some v => head v | None => head l end in
  let bound := match rhs with Some v => mem v | None => mem l end in
  '(_, l') ← while (S (base.size bound)) (λ st, bool_decide (st.1 ≠ None))
               (append_step src) (first, l);
  Ok l'.

(** [~list()]: [while (sz > 0) pop_front();] *)
Definition destroy (l : list_) : outcome list_ :=
  while (Z.to_nat (sz l)) (λ l, 0 <? sz l) pop_front l.

(** [resize(size_t n, const T& val = T())] *)
Definition resize (n : Z) (val : T) (l : list_) : outcome list_ :=
  l1 ← while (Z.to_nat n) (λ l, sz l <? n) (push_back val) l;
  while (Z.to_nat (sz l1)) (λ l, n <? sz l) pop_back l1.

(** [insert(iterator i, const T& val)] *)
Definition insert (i : iterator) (val : T) (l : list_)
    : outcome (iterator * list_) :=
  if decide (i = begin_ l) then l' ← push_front val l; Ok (i, l')
  else if decide (i = end_ l) then l' ← push_back val l; Ok (i, l')
  else
    nd ← deref (mem l) i;
    let '(midNode, h) := new_node (Node val (prev nd) i) (mem l) in
    nd ← deref h i;
    h ← set_next h (prev nd) (Some midNode);  (* i.n->prev->next = midNode; *)
    h ← set_prev h i (Some midNode);          (* i.n->prev = midNode; *)
    Ok (i, {| mem := h; head := head l; tail := tail l;
              sz := wrap (sz l + 1) |}).

(** [erase(iterator i)] *)
Definition erase (i : iterator) (l : list_) : outcome (iterator * list_) :=
  if decide (i = begin_ l) then l' ← pop_front l; Ok (i, l')
  else if decide (i = end_ l) then l' ← pop_back l; Ok (i, l')
  else
    nd ← deref (mem l) i;
    h ← set_prev (mem l) (next nd) (prev nd); (* i.n->next->prev = i.n->prev; *)
    nd ← deref h i;
    h ← set_next h (prev nd) (next nd);       (* i.n->prev->next = i.n->next; *)
    h ← delete_node h i;                      (* delete i.n; *)
    Ok (i, {| mem := h; head := head l; tail := tail l;
              sz := wrap (sz l - 1) |}).

(** Forward traversal: dereference and [++] from [p] until [NULL]. *)
Fixpoint forward (fuel : nat) (h : gmap positive node) (p : ptr)
    : outcome (list T) :=
  match p with
  | None => Ok []
  | Some _ =>
      match fuel with
      | O => Timeout
      | S fuel' =>
          nd ← deref h p;
          rest ← forward fuel' h (next nd);
          Ok (t nd :: rest)
      end
  end.

(** Backward traversal: dereference and [--] from [p] until [NULL]. *)
Fixpoint backward (fuel : nat) (h : gmap positive node) (p : ptr)
    : outcome (list T) :=
  match p with
  | None => Ok []
  | Some _ =>
      match fuel with
      | O => Timeout
      | S fuel' =>
          nd ← deref h p;
          rest ← backward fuel' h (prev nd);
          Ok (t nd :: rest)
      end
  end.

(** The elements met from [head] forwards, and from [tail] backwards. *)
Definition to_list (l : list_) : outcome (list T) :=
  forward (base.size (mem l)) (mem l) (head l).
Definition to_list_rev (l : list_) : outcome (list T) :=
  backward (base.size (mem l)) (mem l) (tail l).

(** The address before position [i] of [ls], if any. *)
Definition before (ls : list positive) (i : nat) : ptr :=
  match i with
  | O => None
  | S j => ls !! j
  end.

(** [chain h ls vs]: the nodes at the addresses [ls] are live, hold the
    values [vs] and are linked in this order in both directions; the
    first has no predecessor and the last no successor. *)
Definition chain (h : gmap positive node) (ls : list positive)
    (vs : list T) : Prop :=
  length vs = length ls
  ∧ ∀ (i : nat) (a : positive), ls !! i = Some a →
      ∃ x, vs !! i = Some x
           ∧ h !! a = Some {| t := x; prev := before ls i; next := ls !! S i |}.

(** Representation invariant: [head], [tail] and [sz] describe a chain
    of distinct nodes at the addresses [ls] with the values [vs], and no
    other node is allocated. *)
Record is_list (l : list_) (ls : list positive) (vs : list T) : Prop :=
  IsList {
    is_list_nodup : NoDup ls;
    is_list_chain : chain (mem l) ls vs;
    is_list_dom : dom (mem l) = list_to_set ls;
    is_list_head : head l = ls !! O;
    is_list_tail : tail l = last ls;
    is_list_sz : sz l = Z.of_nat (length ls);
    is_list_size_t : sz l < size_max
  }.

(** The structural invariant as the specification words it: [sz] is 0
    exactly when [head] and [tail] are both null; otherwise the node at
    [head] has no [prev], the node at [tail] has no [next], and the
    traversals from [head] forwards and from [tail] backwards meet the
    same [sz] elements in opposite orders. *)
Definition invariant (l : list_) : Prop :=
  (sz l = 0 ↔ head l = None ∧ tail l = None)
  ∧ (sz l ≠ 0 →
     ∃ first last_, deref (mem l) (head l) = Ok first ∧ prev first = None
                    ∧ deref (mem l) (tail l) = Ok last_ ∧ next last_ = None)
  ∧ ∃ vs, to_list l = Ok vs ∧ to_list_rev l = Ok (reverse vs)
          ∧ Z.of_nat (length vs) = sz l.

End list_.
Arguments list_ T : clear implicits.
Arguments node T : clear implicits.

(** The list built by [push_back] of 10, 20, 30 on an empty list: three
    nodes at the addresses 1, 2, 3. *)
Definition l123 : list_ Z :=
  {| mem := {[ 1%positive := Node 10 None (Some 2%positive);
               2%positive := Node 20 (Some 1%positive) (Some 3%positive);
               3%positive := Node 30 (Some 2%positive) None ]};
     head := Some 1%positive; tail := Some 3%positive; sz := 3 |}.

(** The same list without its node 20. *)
Definition l13 : list_ Z :=
  {| mem := {[ 1%positive := Node 10 None (Some 3%positive);
               3%positive := Node 30 (Some 1%positive) None ]};
     head := Some 1%positive; tail := Some 3%positive; sz := 2 |}.
End list_.

(** ** Generic facts: integers, outcomes, loops *)

Lemma wrap_small (z : Z) : 0 ≤ z < size_max → wrap z = z.
Proof. intros Hz. unfold wrap. by apply Z.mod_small. Qed.

Lemma bind_Ok {A B : Type} (m : outcome A) (f : A → outcome B) (b : B) :
  m ≫= f = Ok b ↔ ∃ a, m = Ok a ∧ f a = Ok b.
Proof.
  destruct m as [a| | |]; simpl; split; try (intros [a' [Ha _]]; discriminate);
    try discriminate.
  - intros Hf. by exists a.
  - intros [a' [[= ->] Hf]]. done.
Qed.

(** Total correctness of a loop: an invariant [I] and a measure [m] that
    the body decreases; [fuel] at least the measure is enough. *)
Lemma while_total {S : Type} (I : S → Prop) (m : S → nat)
    (cond : S → bool) (body : S → outcome S) :
  (∀ s, I s → cond s = true → ∃ s', body s = Ok s' ∧ I s' ∧ (m s' < m s)%nat) →
  ∀ fuel s, I s → (m s ≤ fuel)%nat →
    ∃ s', while fuel cond body s = Ok s' ∧ I s' ∧ cond s' = false.
Proof.
  intros Hstep fuel. induction fuel as [|fuel IH]; intros s HI Hm.
  - simpl. destruct (cond s) eqn:Hc; [|by exists s].
    destruct (Hstep s HI Hc) as (s' & _ & _ & Hlt). lia.
  - simpl. destruct (cond s) eqn:Hc; [|by exists s].
    destruct (Hstep s HI Hc) as (s' & -> & HI' & Hlt). simpl.
    apply IH; [done | lia].
Qed.

(** Partial correctness of a loop: what holds when it returns. *)
Lemma while_partial {S : Type} (I : S → Prop)
    (cond : S → bool) (body : S → outcome S) :
  (∀ s s', I s → cond s = true → body s = Ok s' → I s') →
  ∀ fuel s s', I s → while fuel cond body s = Ok s' → I s' ∧ cond s' = false.
Proof.
  intros Hstep fuel. induction fuel as [|fuel IH]; intros s s' HI; simpl.
  - destruct (cond s) eqn:Hc; [done|]. by intros [= <-].
  - destruct (cond s) eqn:Hc; [|by intros [= <-]].
    intros (s1 & Hb & Hw)%bind_Ok. eauto.
Qed.

(** The elements after [resize(n)] and [resize(s)] on [s] elements [xs],
    with [d] in the added places. *)
Lemma resize_twice_elements {A : Type} (xs : list A) (d : A) (n s : Z) :
  length xs = Z.to_nat s → 0 ≤ n → 0 ≤ s →
  take (Z.to_nat s) (take (Z.to_nat n) xs ++ replicate (Z.to_nat (n - s)) d)
    ++ replicate (Z.to_nat (s - n)) d
  = take (Z.to_nat n) xs ++ replicate (Z.to_nat (s - n)) d.
Proof.
  intros Hlen Hn Hs. destruct (decide (n ≤ s)) as [Hle|Hgt].
  - replace (Z.to_nat (n - s)) with 0%nat by lia. simpl. rewrite app_nil_r.
    rewrite (take_ge (take _ _)) by (rewrite length_take; lia). done.
  - replace (Z.to_nat (s - n)) with 0%nat by lia. simpl. rewrite !app_nil_r.
    rewrite (take_ge xs) by lia. by rewrite <- Hlen, take_app_length.
Qed.

(** ** vector.h: proofs *)

Module vector_proofs.
Import vector.
Section vector_proofs.
Context {T : Type} `{DefaultConstructible T}.
Implicit Types (v : vector T) (b : list T) (x val : T) (i n c : Z).
Implicit Types (o : op T) (ops : list (op T)) (m : modifier T).
Implicit Types (r : cref T).

Lemma load_Ok b i x :
  0 ≤ i → b !! Z.to_nat i = Some x → load b i = Ok x.
Proof.
  intros Hi Hx. unfold load. apply lookup_lt_Some in Hx as Hlt.
  rewrite decide_True by lia. by rewrite Hx.
Qed.

Lemma store_Ok b i x :
  0 ≤ i < Z.of_nat (length b) → store b i x = Ok (<[Z.to_nat i := x]> b).
Proof. intros Hi. unfold store. by rewrite decide_True. Qed.

Lemma length_new_array c : 0 ≤ c → Z.of_nat (length (new_array c)) = c.
Proof. intros Hc. unfold new_array. rewrite length_fmap, length_seq. lia. Qed.

(** A slot of a fresh array holds what [new] left there. *)
Lemma lookup_new_array c (j : nat) :
  Z.of_nat j < c → new_array c !! j = Some (T_new j).
Proof.
  intros Hj. unfold new_array. rewrite list_lookup_fmap.
  by rewrite lookup_seq_lt by lia.
Qed.

(** The copy loop of [reserve] and of the assignment: slots
    [i .. i+k-1] of [dst] receive those of [src]. *)
Lemma copy_slots_Ok (k i : nat) (src dst : list T) :
  (i + k ≤ length src)%nat → (i + k ≤ length dst)%nat →
  ∃ dst', copy_slots k (Z.of_nat i) src dst = Ok dst'
    ∧ length dst' = length dst
    ∧ ∀ j : nat, dst' !! j =
        if decide (i ≤ j < i + k)%nat then src !! j else dst !! j.
Proof.
  revert i dst. induction k as [|k IH]; intros i dst Hs Hd; simpl.
  - exists dst. split_and!; [done..|]. intros j. case_decide; [lia|done].
  - destruct (lookup_lt_is_Some_2 src i) as [x Hx]; [lia|].
    rewrite (load_Ok _ _ x); [|lia|by rewrite Nat2Z.id]. simpl.
    rewrite store_Ok by lia. simpl. rewrite Nat2Z.id.
    replace (Z.of_nat i + 1) with (Z.of_nat (S i)) by lia.
    destruct (IH (S i) (<[i:=x]> dst)) as (dst' & -> & Hlen & Hget);
      [lia|rewrite length_insert; lia|].
    exists dst'. split_and!; [done|by rewrite Hlen, length_insert|].
    intros j. rewrite Hget.
    destruct (decide (j = i)) as [->|Hne].
    + rewrite decide_False by lia. rewrite decide_True by lia.
      rewrite list_lookup_insert_eq by lia. done.
    + rewrite list_lookup_insert_ne by done.
      repeat case_decide; first [done|lia].
Qed.

Lemma elements_lookup v (j : nat) :
  (j < Z.to_nat (sz v))%nat → elements v !! j = t v !! j.
Proof. intros Hj. unfold elements. by rewrite lookup_take_lt. Qed.

Lemma elements_length v : wf v → length (elements v) = Z.to_nat (sz v).
Proof. intros (Hl & Hs & Hc). unfold elements. rewrite length_take. lia. Qed.

(** [reserve] with a larger capacity: a buffer of [c] slots whose first
    [sz] slots are the old ones. *)
Lemma reserve_grow c v :
  wf v → cap v < c →
  ∃ v', reserve c v = Ok v' ∧ cap v' = c ∧ sz v' = sz v
    ∧ Z.of_nat (length (t v')) = c
    ∧ ∀ j : nat, (j < Z.to_nat (sz v))%nat → t v' !! j = t v !! j.
Proof.
  intros (Hl & Hs & Hc) Hlt. unfold reserve.
  rewrite (proj2 (Z.ltb_lt _ _)) by done.
  destruct (copy_slots_Ok (Z.to_nat (sz v)) 0 (t v) (new_array c))
    as (b & Hb & Hlen & Hget).
  { lia. }
  { pose proof (length_new_array c). lia. }
  change (Z.of_nat 0) with 0 in Hb. rewrite Hb. simpl.
  eexists. split_and!; try done; simpl.
  - rewrite Hlen. apply length_new_array. lia.
  - intros j Hj. rewrite Hget. by rewrite decide_True by lia.
Qed.

Lemma reserve_no_grow c v : c ≤ cap v → reserve c v = Ok v.
Proof. intros Hc. unfold reserve. by rewrite (proj2 (Z.ltb_ge _ _)). Qed.

(** The common shape of [push_back] and [push_back_incremental]: grow
    to [c] when full, then write at [sz] and increment [sz]. *)
Lemma push_with_spec c x v :
  wf v → (sz v = cap v → cap v < c < size_max) →
  ∃ v', (v1 ← (if sz v =? cap v then reserve c v else Ok v);
         b ← store (t v1) (sz v1) x;
         Ok {| t := b; cap := cap v1; sz := wrap (sz v1 + 1) |}) = Ok v'
    ∧ wf v'
    ∧ sz v' = sz v + 1
    ∧ cap v' = (if sz v =? cap v then c else cap v)
    ∧ t v' !! Z.to_nat (sz v) = Some x
    ∧ ∀ j : nat, (j < Z.to_nat (sz v))%nat → t v' !! j = t v !! j.
Proof.
  intros Hwf Hc. pose proof Hwf as (Hl & Hs & Hcap).
  destruct (Z.eqb_spec (sz v) (cap v)) as [Hfull|Hroom].
  - specialize (Hc Hfull).
    destruct (reserve_grow c v Hwf) as (v1 & -> & Hc1 & Hs1 & Hl1 & Hget);
      [lia|]. simpl.
    rewrite store_Ok by lia. simpl. rewrite wrap_small by lia.
    eexists. split_and!; try done; simpl.
    + unfold wf; simpl. rewrite length_insert. lia.
    + lia.
    + rewrite Hs1. rewrite list_lookup_insert_eq by lia. done.
    + intros j Hj. rewrite list_lookup_insert_ne by lia. by apply Hget.
  - simpl. rewrite store_Ok by lia. simpl. rewrite wrap_small by lia.
    eexists. split_and!; try done; simpl.
    + unfold wf; simpl. rewrite length_insert. lia.
    + rewrite list_lookup_insert_eq by lia. done.
    + intros j Hj. rewrite list_lookup_insert_ne by lia. done.
Qed.

Lemma push_back_spec x v :
  wf v → (sz v = cap v → 2 * cap v < size_max) →
  ∃ v', push_back (Obj x) v = Ok v' ∧ wf v'
    ∧ sz v' = sz v + 1
    ∧ cap v' = (if sz v =? cap v then 2 * cap v else cap v)
    ∧ t v' !! Z.to_nat (sz v) = Some x
    ∧ ∀ j : nat, (j < Z.to_nat (sz v))%nat → t v' !! j = t v !! j.
Proof.
  intros Hwf Hc. pose proof Hwf as (Hl & Hs & Hcap).
  destruct (push_with_spec (wrap (cap v * 2)) x v Hwf)
    as (v' & Hv' & Hwf' & Hsz & Hc' & Hx & Hget).
  { intros Hfull. rewrite wrap_small by lia. lia. }
  exists v'. split_and!; try done.
  rewrite Hc'. destruct (sz v =? cap v) eqn:E; [|done].
  apply Z.eqb_eq in E. rewrite wrap_small by lia. lia.
Qed.

Lemma push_back_incremental_spec x v :
  wf v → (sz v = cap v → cap v + 1 < size_max) →
  ∃ v', push_back_incremental (Obj x) v = Ok v' ∧ wf v'
    ∧ sz v' = sz v + 1
    ∧ cap v' = (if sz v =? cap v then cap v + 1 else cap v)
    ∧ t v' !! Z.to_nat (sz v) = Some x
    ∧ ∀ j : nat, (j < Z.to_nat (sz v))%nat → t v' !! j = t v !! j.
Proof.
  intros Hwf Hc. pose proof Hwf as (Hl & Hs & Hcap).
  destruct (push_with_spec (wrap (cap v + 1)) x v Hwf)
    as (v' & Hv' & Hwf' & Hsz & Hc' & Hx & Hget).
  { intros Hfull. rewrite wrap_small by lia. lia. }
  exists v'. split_and!; try done.
  rewrite Hc'. destruct (sz v =? cap v) eqn:E; [|done].
  apply Z.eqb_eq in E. rewrite wrap_small by lia. lia.
Qed.

(** The live elements after a write at [sz] and an increment of [sz]. *)
Lemma push_back_elements x v v' :
  wf v → sz v' = sz v + 1 →
  t v' !! Z.to_nat (sz v) = Some x →
  (∀ j : nat, (j < Z.to_nat (sz v))%nat → t v' !! j = t v !! j) →
  elements v' = elements v ++ [x].
Proof.
  intros Hwf Hsz Hx Hget. pose proof Hwf as (Hl & Hs & Hcap).
  apply list_eq. intros j. unfold elements. rewrite Hsz.
  destruct (decide (j < Z.to_nat (sz v))%nat) as [Hj|Hj].
  - rewrite lookup_app_l by (rewrite length_take; lia).
    rewrite !lookup_take_lt by lia. by apply Hget.
  - rewrite lookup_app_r by (rewrite length_take; lia).
    rewrite length_take.
    replace (Z.to_nat (sz v) `min` length (t v))%nat with (Z.to_nat (sz v))
      by lia.
    destruct (decide (j = Z.to_nat (sz v))) as [->|Hne].
    + rewrite lookup_take_lt by lia. rewrite Nat.sub_diag. by rewrite Hx.
    + rewrite lookup_take_ge by lia.
      destruct (j - Z.to_nat (sz v))%nat eqn:E; [lia|done].
Qed.

(** [pop_back]: nothing on an empty vector; otherwise the last live slot
    is reset to [T()] and [sz] decremented. The capacity stays. *)
Lemma pop_back_spec v :
  wf v →
  ∃ v', pop_back v = Ok v' ∧ wf v' ∧ cap v' = cap v
    ∧ sz v' = (if sz v =? 0 then 0 else sz v - 1)
    ∧ elements v' = take (Z.to_nat (sz v - 1)) (elements v).
Proof.
  intros Hwf. pose proof Hwf as (Hl & Hs & Hcap). unfold pop_back, empty.
  destruct (Z.eqb_spec (sz v) 0) as [H0|Hne]; simpl.
  - exists v. split_and!; try done. unfold elements. rewrite H0. done.
  - rewrite wrap_small by lia. rewrite store_Ok by lia. simpl.
    eexists. split_and!; try done.
    + unfold wf; simpl. rewrite length_insert. lia.
    + unfold elements; simpl. rewrite take_insert_ge by lia.
      rewrite take_take. f_equal. lia.
Qed.

(** *** Arguments that refer to the buffer *)

(** [b[i]] returns the slot or is undefined; it never throws. *)
Lemma load_cases b i : (∃ x, load b i = Ok x) ∨ load b i = Undef.
Proof.
  unfold load. case_decide; [|by right].
  destruct (b !! Z.to_nat i) as [x|]; [left; by exists x|by right].
Qed.

(** While there is room, the argument [t[j]] is read from the live
    buffer: the call is the one with the value of the slot. *)
Lemma push_back_slot j x v :
  sz v ≠ cap v → 0 ≤ j → t v !! Z.to_nat j = Some x →
  push_back (Slot j) v = push_back (Obj x) v
  ∧ push_back_incremental (Slot j) v = push_back_incremental (Obj x) v.
Proof.
  intros Hroom Hj Hx. unfold push_back, push_back_incremental.
  rewrite (proj2 (Z.eqb_neq _ _)) by done. simpl.
  by rewrite Z.ltb_irrefl, (load_Ok _ _ x).
Qed.

(** On a full vector the argument [t[j]] is not read from a live buffer:
    when [reserve(c)] grows the vector the buffer has been freed, and
    otherwise the write at [t[sz]] is outside the buffer. *)
Lemma push_full_slot c j v :
  wf v → sz v = cap v →
  (v1 ← (if sz v =? cap v then reserve c v else Ok v);
   x ← read (Slot j) v v1;
   b ← store (t v1) (sz v1) x;
   Ok {| t := b; cap := cap v1; sz := wrap (sz v1 + 1) |}) = Undef.
Proof.
  intros Hwf Hfull. pose proof Hwf as (Hl & Hs & Hcap).
  rewrite (proj2 (Z.eqb_eq _ _)) by done.
  destruct (decide (cap v < c)) as [Hlt|Hge].
  - destruct (reserve_grow c v Hwf Hlt) as (v1 & -> & Hc1 & _). simpl.
    by rewrite Hc1, (proj2 (Z.ltb_lt _ _)).
  - rewrite reserve_no_grow by lia. simpl. rewrite Z.ltb_irrefl.
    destruct (load_cases (t v) j) as [[x ->]| ->]; [|done]. simpl.
    unfold store. by rewrite decide_False by lia.
Qed.

(** *** Element access *)

(** C4: [at(i)] throws [out_of_range] exactly when [i >= size()];
    for [i < size()] it returns the element in slot [i]; the vector is the
    same afterwards in every case. *)
Theorem at_checked i v :
  wf v → 0 ≤ i →
  ((at_ i v).1 = Throw out_of_range ↔ size v ≤ i)
  ∧ (i < size v → ∃ x, t v !! Z.to_nat i = Some x ∧ (at_ i v).1 = Ok x)
  ∧ (at_ i v).2 = v.
Proof.
  intros (Hl & Hs & Hcap) Hi. unfold at_, size. simpl.
  rewrite (proj2 (Z.ltb_ge _ _)) by done. simpl.
  destruct (Z.leb_spec (sz v) i) as [Hge|Hlt].
  - split_and!; [done|lia|done].
  - destruct (lookup_lt_is_Some_2 (t v) (Z.to_nat i)) as [x Hx]; [lia|].
    rewrite (load_Ok _ _ x) by done.
    split_and!; [|by exists x|done].
    split; [done|lia].
Qed.

(** *** Growth *)

(** C5: on a full vector [push_back] doubles the capacity and
    [push_back_incremental] adds one to it; a value passed in an object
    outside the buffer is then written in the slot at the old size, and
    the size is incremented. When the argument refers to a slot of the
    vector itself, as in [v.push_back(v[0])], no value is written:
    [reserve] has freed the buffer, and the argument with it, before
    [t[sz] = val] reads it. *)
Theorem push_back_full val j v :
  wf v → size v = capacity v →
  (2 * capacity v < size_max →
     ∃ v', push_back (Obj val) v = Ok v'
       ∧ capacity v' = 2 * capacity v
       ∧ t v' !! Z.to_nat (size v) = Some val
       ∧ size v' = size v + 1)
  ∧ (capacity v + 1 < size_max →
     ∃ v', push_back_incremental (Obj val) v = Ok v'
       ∧ capacity v' = capacity v + 1
       ∧ t v' !! Z.to_nat (size v) = Some val
       ∧ size v' = size v + 1)
  ∧ push_back (Slot j) v = Undef
  ∧ push_back_incremental (Slot j) v = Undef.
Proof.
  unfold size, capacity. intros Hwf Hfull. split_and!.
  - intros Hc.
    destruct (push_back_spec val v Hwf) as (v' & Hv' & _ & Hs & Hc' & Hx & _);
      [done|].
    exists v'. rewrite Hfull, Z.eqb_refl in Hc'. split_and!; try done; lia.
  - intros Hc.
    destruct (push_back_incremental_spec val v Hwf)
      as (v' & Hv' & _ & Hs & Hc' & Hx & _); [done|].
    exists v'. rewrite Hfull, Z.eqb_refl in Hc'. split_and!; try done; lia.
  - by apply push_full_slot.
  - by apply push_full_slot.
Qed.

(** *** Insertion *)

(** C3: [insert] on a full vector changes nothing, whatever the
    position: same buffer, same size, same capacity. *)
Theorem insert_full_unchanged i val v :
  size v = capacity v → insert i val v = Ok (i, v).
Proof.
  unfold size, capacity, insert. intros ->. by rewrite Z.ltb_irrefl.
Qed.

(** What [insert] does when there is room, at a position [i] in
    [0 .. sz]: every internal [push_back] writes the slot [t[sz]], since
    the loop decrements [sz] again; at the end this slot holds the element
    formerly at [i], slot [i] holds [val], and the slots between keep
    their elements. *)
Lemma insert_spec i val v :
  wf v → sz v < cap v → 0 ≤ i ≤ sz v →
  ∃ y v', t v !! Z.to_nat i = Some y
    ∧ insert i val v = Ok (i, v')
    ∧ wf v' ∧ cap v' = cap v ∧ sz v' = sz v + 1
    ∧ t v' = <[Z.to_nat i := val]>
               (if i <? sz v then <[Z.to_nat (sz v) := y]> (t v) else t v).
Proof.
  intros Hwf Hroom Hi. pose proof Hwf as (Hl & Hs & Hcap).
  destruct (lookup_lt_is_Some_2 (t v) (Z.to_nat i)) as [y Hy]; [lia|].
  unfold insert. rewrite (proj2 (Z.ltb_lt _ _)) by done.
  destruct (while_total
    (λ st : Z * Z * vector T,
       let '(tmp, indx, w) := st in
       tmp = indx ∧ i ≤ tmp ≤ sz v ∧ sz w = sz v ∧ cap w = cap v
       ∧ ∃ z, t v !! Z.to_nat tmp = Some z
              ∧ t w = if tmp <? sz v then <[Z.to_nat (sz v) := z]> (t v)
                      else t v)
    (λ st, Z.to_nat (st.1.1 - i))
    (λ st, negb (i =? st.1.2)) insert_step)
    with (fuel := S (Z.to_nat (sz v))) (s := (sz v, sz v, v))
    as ([[tmp indx] w] & Hloop & (<- & Htmp & Hsw & Hcw & z & Hz & Htw) & Hexit).
  - intros [[tmp indx] w] (<- & Htmp & Hsw & Hcw & z & Hz & Htw) Hcond.
    simpl in Hcond. apply negb_true_iff, Z.eqb_neq in Hcond.
    unfold insert_step. rewrite wrap_small by lia.
    destruct (lookup_lt_is_Some_2 (t v) (Z.to_nat (tmp - 1))) as [x Hx]; [lia|].
    assert (length (t w) = length (t v)) as Hlw.
    { rewrite Htw. destruct (tmp <? sz v); [apply length_insert|done]. }
    assert (t w !! Z.to_nat (tmp - 1) = Some x) as Hxw.
    { rewrite Htw. destruct (tmp <? sz v); [|done].
      rewrite list_lookup_insert_ne by lia. done. }
    unfold push_back. rewrite Hsw, Hcw.
    rewrite (proj2 (Z.eqb_neq _ _)) by lia. simpl.
    rewrite Z.ltb_irrefl, (load_Ok _ _ x) by (done || lia). simpl.
    rewrite Hsw. rewrite store_Ok by lia. simpl.
    rewrite (wrap_small (sz v + 1)) by lia.
    replace (sz v + 1 - 1) with (sz v) by lia. rewrite wrap_small by lia.
    eexists. split; [done|]. simpl. split; [|lia].
    split_and!; try done; try lia.
    exists x. split; [done|].
    rewrite (proj2 (Z.ltb_lt _ _)) by lia. rewrite Htw.
    destruct (tmp <? sz v); [|done]. by rewrite list_insert_insert_eq.
  - simpl. split_and!; try done; try lia.
    destruct (lookup_lt_is_Some_2 (t v) (Z.to_nat (sz v))) as [z Hz]; [lia|].
    exists z. split; [done|]. by rewrite Z.ltb_irrefl.
  - simpl. lia.
  - simpl in Hexit. apply negb_false_iff, Z.eqb_eq in Hexit. subst tmp.
    rewrite Hy in Hz. injection Hz as <-.
    assert (length (t w) = length (t v)) as Hlw.
    { rewrite Htw. destruct (i <? sz v); [apply length_insert|done]. }
    exists y. eexists. split; [done|]. rewrite Hloop. simpl.
    rewrite store_Ok by lia. simpl. rewrite Hsw, wrap_small by lia.
    split; [done|]. simpl. split_and!; try done.
    + unfold wf. simpl. rewrite length_insert. lia.
    + by rewrite Htw.
Qed.

(** [insert] at the last element or at [end()] does shift: the elements
    are those before, with [val] before position [i]. *)
Lemma insert_near_end i val v :
  wf v → sz v < cap v → sz v - 1 ≤ i ≤ sz v → 0 ≤ i →
  ∃ v', insert i val v = Ok (i, v')
    ∧ elements v' = take (Z.to_nat i) (elements v)
                    ++ val :: drop (Z.to_nat i) (elements v).
Proof.
  intros Hwf Hroom Hi Hi0. pose proof Hwf as (Hl & Hs & Hcap).
  destruct (insert_spec i val v) as (y & v' & Hy & Hins & _ & _ & Hs' & Ht');
    [done|done|lia|].
  exists v'. split; [done|]. unfold elements. rewrite Hs', Ht'.
  destruct (Z.ltb_spec i (sz v)) as [Hlt|Hge].
  - assert (sz v = i + 1) as Hsz by lia. rewrite Hsz.
    apply list_eq. intros j.
    destruct (decide (j < Z.to_nat i)%nat) as [Hj|Hj].
    + rewrite lookup_app_l by (rewrite !length_take; lia).
      rewrite !lookup_take_lt by lia.
      rewrite !list_lookup_insert_ne by lia. done.
    + rewrite lookup_app_r by (rewrite !length_take; lia).
      rewrite !length_take.
      replace (Z.to_nat i `min` (Z.to_nat (i + 1) `min` length (t v)))%nat
        with (Z.to_nat i) by lia.
      destruct (j - Z.to_nat i)%nat as [|[|k]] eqn:E; simpl.
      * replace j with (Z.to_nat i) by lia. rewrite lookup_take_lt by lia.
        rewrite list_lookup_insert_eq; [done|]. rewrite length_insert. lia.
      * replace j with (Z.to_nat (i + 1)) by lia.
        rewrite lookup_take_lt by lia.
        rewrite list_lookup_insert_ne by lia.
        rewrite list_lookup_insert_eq by lia.
        rewrite lookup_drop, Nat.add_0_r. by rewrite lookup_take_lt by lia.
      * rewrite lookup_take_ge by lia.
        rewrite lookup_drop. by rewrite lookup_take_ge by lia.
  - assert (i = sz v) as -> by lia.
    replace (Z.to_nat (sz v + 1)) with (S (Z.to_nat (sz v))) by lia.
    rewrite (take_S_r _ _ val) by (apply list_lookup_insert_eq; lia).
    rewrite take_insert_ge by lia. rewrite take_take, Nat.min_id.
    by rewrite (drop_ge (take _ _)) by (rewrite length_take; lia).
Qed.

(** [insert] before an element: the element formerly at [i] goes to the
    end, and the elements after it stay where they were. *)
Lemma insert_elements i val v :
  wf v → sz v < cap v → 0 ≤ i < sz v →
  ∃ y v', elements v !! Z.to_nat i = Some y
    ∧ insert i val v = Ok (i, v')
    ∧ elements v' = take (Z.to_nat i) (elements v)
                    ++ val :: drop (S (Z.to_nat i)) (elements v) ++ [y].
Proof.
  intros Hwf Hroom Hi. pose proof Hwf as (Hl & Hs & Hcap).
  destruct (insert_spec i val v) as (y & v' & Hy & Hins & _ & _ & Hs' & Ht');
    [done|done|lia|].
  exists y, v'. rewrite elements_lookup by lia. split_and!; [done..|].
  pose proof (elements_length v Hwf) as Hlen.
  rewrite (proj2 (Z.ltb_lt _ _)) in Ht' by lia.
  apply list_eq. intros j. unfold elements at 1. rewrite Hs', Ht'.
  destruct (decide (j < Z.to_nat i)%nat) as [Hj|Hj].
  - rewrite lookup_app_l by (rewrite length_take; lia).
    rewrite lookup_take_lt by lia. rewrite lookup_take_lt by lia.
    rewrite !list_lookup_insert_ne by lia. by rewrite elements_lookup by lia.
  - rewrite lookup_app_r by (rewrite length_take; lia).
    rewrite length_take.
    replace (Z.to_nat i `min` length (elements v))%nat with (Z.to_nat i) by lia.
    destruct (j - Z.to_nat i)%nat as [|k] eqn:E; simpl.
    + replace j with (Z.to_nat i) by lia. rewrite lookup_take_lt by lia.
      rewrite list_lookup_insert_eq; [done|]. rewrite length_insert. lia.
    + destruct (decide (j < Z.to_nat (sz v))%nat) as [Hjn|Hjn].
      * rewrite lookup_app_l by (rewrite length_drop; lia).
        rewrite lookup_drop. rewrite lookup_take_lt by lia.
        rewrite !list_lookup_insert_ne by lia.
        rewrite elements_lookup by lia. f_equal. lia.
      * rewrite lookup_app_r by (rewrite length_drop; lia).
        rewrite length_drop.
        destruct (decide (j = Z.to_nat (sz v))) as [->|Hne].
        -- replace (k - (length (elements v) - S (Z.to_nat i)))%nat with 0%nat
             by lia.
           rewrite lookup_take_lt by lia.
           rewrite list_lookup_insert_ne by lia.
           rewrite list_lookup_insert_eq by lia. done.
        -- rewrite lookup_take_ge by lia.
           destruct (k - (length (elements v) - S (Z.to_nat i)))%nat eqn:E';
             [lia|done].
Qed.

(** *** Removal *)

(** [erase] at a position [i] of the buffer returns: the slots from [i]
    on move one place to the left (all of them, up to the capacity), and
    the size is decremented. For [i < sz] the element at [i] is removed. *)
Lemma erase_spec i v :
  wf v → 0 < sz v → 0 ≤ i ≤ cap v →
  ∃ v', erase i v = Ok (i, v') ∧ wf v' ∧ cap v' = cap v ∧ sz v' = sz v - 1
    ∧ (i < sz v → elements v' = delete (Z.to_nat i) (elements v)).
Proof.
  intros Hwf Hpos Hi. pose proof Hwf as (Hl & Hs & Hcap).
  unfold erase, empty. rewrite (proj2 (Z.eqb_neq _ _)) by lia. simpl.
  destruct (while_total
    (λ st : Z * Z, st.1 = st.2 ∧ 0 ≤ st.2 ≤ i)
    (λ st, Z.to_nat (i - st.2))
    (λ st, negb (i =? st.2)) (erase_seek (cap v)))
    with (fuel := S (Z.to_nat (cap v))) (s := (0, 0))
    as ([tmp indx] & Hseek & (Htmp & Hindx) & Hexit).
  - intros [tmp indx] [Htmp Hindx] Hcond. simpl in *. subst tmp.
    apply negb_true_iff, Z.eqb_neq in Hcond.
    unfold erase_seek. rewrite decide_True by lia.
    rewrite wrap_small by lia. eexists. split; [done|]. simpl. lia.
  - simpl. lia.
  - simpl. lia.
  - simpl in *. apply negb_false_iff, Z.eqb_eq in Hexit. subst tmp indx.
    unfold iterator in *. rewrite Hseek. simpl.
    destruct (while_total
      (λ st : Z * list T,
         i ≤ st.1 ≤ Z.max i (cap v - 1) ∧ length st.2 = length (t v)
         ∧ ∀ m : nat, st.2 !! m =
             if decide (i ≤ Z.of_nat m < st.1) then t v !! S m else t v !! m)
      (λ st, Z.to_nat (cap v - 1 - st.1))
      (λ st, st.1 <? wrap (cap v - 1)) erase_shift)
      with (fuel := Z.to_nat (cap v)) (s := (i, t v))
      as ([j b] & Hshift & (Hj & Hlen & Hget) & Hexit).
    + intros [j b] (Hj & Hlen & Hget) Hcond. simpl in *.
      rewrite wrap_small in Hcond by lia. apply Z.ltb_lt in Hcond.
      unfold erase_shift. rewrite wrap_small by lia.
      destruct (lookup_lt_is_Some_2 (t v) (Z.to_nat (j + 1))) as [x Hx]; [lia|].
      rewrite (load_Ok _ _ x); [|lia|].
      2: { rewrite Hget. rewrite decide_False by lia. done. }
      simpl. rewrite store_Ok by lia. simpl.
      eexists. split; [done|]. simpl. split; [|lia].
      split_and!; try lia.
      * by rewrite length_insert.
      * intros m. destruct (decide (m = Z.to_nat j)) as [->|Hne].
        -- rewrite list_lookup_insert_eq by lia.
           rewrite decide_True by lia. rewrite <- Hx. f_equal. lia.
        -- rewrite list_lookup_insert_ne by done. rewrite Hget.
           repeat case_decide; done || lia.
    + simpl. split_and!; [lia..|done|].
      intros m. by rewrite decide_False by lia.
    + simpl. lia.
    + simpl in *. rewrite wrap_small in Hexit by lia. apply Z.ltb_ge in Hexit.
      rewrite Hshift. simpl. rewrite wrap_small by lia.
      eexists. split; [done|]. simpl. split_and!; try done.
      * unfold wf. simpl. lia.
      * intros Hlt. unfold elements. simpl.
        apply list_eq. intros m.
        destruct (decide (m < Z.to_nat (sz v - 1))%nat) as [Hm|Hm].
        -- rewrite lookup_take_lt by lia. rewrite Hget.
           destruct (decide (m < Z.to_nat i)%nat) as [Hmi|Hmi].
           ++ rewrite list_lookup_delete_lt by done.
              rewrite decide_False by lia. by rewrite lookup_take_lt by lia.
           ++ rewrite list_lookup_delete_ge by lia.
              rewrite decide_True by lia. by rewrite lookup_take_lt by lia.
        -- rewrite lookup_take_ge by lia. symmetry.
           apply lookup_ge_None_2. rewrite length_delete.
           ++ rewrite length_take. lia.
           ++ apply lookup_lt_is_Some_2. rewrite length_take. lia.
Qed.

(** [clear] pops [(int) sz] times; with less than [2^31] elements this
    empties the vector. *)
Lemma clear_spec v :
  wf v → sz v < 2 ^ 31 →
  ∃ v', clear v = Ok v' ∧ wf v' ∧ cap v' = cap v ∧ sz v' = 0.
Proof.
  intros Hwf Hsmall. pose proof Hwf as (Hl & Hs & Hcap). unfold clear.
  assert (to_int (sz v) = sz v) as ->.
  { unfold to_int. rewrite Z.mod_small; lia. }
  destruct (while_total
    (λ st : Z * vector T, wf st.2 ∧ cap st.2 = cap v ∧ sz st.2 = st.1
                          ∧ 0 ≤ st.1)
    (λ st, Z.to_nat st.1)
    (λ st, 0 <? st.1) (λ st, v' ← pop_back st.2; Ok (st.1 - 1, v')))
    with (fuel := Z.to_nat (sz v)) (s := (sz v, v))
    as ([k v'] & Hloop & (Hwf' & Hc' & Hs' & Hk) & Hexit).
  - intros [k w] (Hwfw & Hcw & Hsw & Hk) Hcond. simpl in *.
    apply Z.ltb_lt in Hcond.
    destruct (pop_back_spec w Hwfw) as (w' & -> & Hwf' & Hc' & Hs' & _).
    simpl. eexists. split; [done|]. simpl.
    rewrite (proj2 (Z.eqb_neq _ _)) in Hs' by lia.
    split_and!; try done; try lia; congruence.
  - simpl. split_and!; try done. lia.
  - simpl. lia.
  - simpl in *. apply Z.ltb_ge in Hexit. rewrite Hloop. simpl.
    exists v'. split_and!; try done. lia.
Qed.

(** *** Sequences of [push_back] and [pop_back] *)

Lemma pushes_cons o ops :
  pushes (o :: ops) = (if is_push o then 1 else 0) + pushes ops.
Proof.
  unfold pushes. rewrite filter_cons. destruct (is_push o); simpl; lia.
Qed.

Lemma pops_cons o ops :
  pops (o :: ops) = (if is_push o then 0 else 1) + pops ops.
Proof.
  unfold pops. rewrite filter_cons. destruct (is_push o); simpl; lia.
Qed.

Lemma counter_no_pop_at_zero ops : ∀ s,
  no_pop_at_zero s ops → counter s ops = s + pushes ops - pops ops.
Proof.
  induction ops as [|[x|] ops IH]; intros s Hs.
  - unfold pushes, pops. simpl. lia.
  - rewrite pushes_cons, pops_cons. simpl. rewrite IH by done. lia.
  - destruct Hs as [Hpos Hs]. rewrite pushes_cons, pops_cons. simpl.
    rewrite Z.max_r by lia. rewrite IH by done. lia.
Qed.

(** C6, amended: a sequence of [push_back] and [pop_back] calls, where
    the pushed values are objects of the caller, returns, and the size
    follows a counter that a pop at [0] leaves at [0]. When
    no pop of the sequence meets an empty vector, the size afterwards is
    the size before plus the pushes minus the pops. *)
Theorem push_pop_size ops : ∀ v,
  wf v → 2 * (size v + Z.of_nat (length ops)) < size_max →
  ∃ v', run ops v = Ok v'
    ∧ size v' = counter (size v) ops
    ∧ (no_pop_at_zero (size v) ops →
       size v' = size v + pushes ops - pops ops).
Proof.
  unfold size.
  assert (Hmain : ∀ v, wf v → 2 * (sz v + Z.of_nat (length ops)) < size_max →
            ∃ v', run ops v = Ok v' ∧ sz v' = counter (sz v) ops).
  { induction ops as [|[x|] ops IH]; intros v Hwf Hbound.
    - by exists v.
    - simpl in *. pose proof Hwf as (Hl & Hs & Hcap).
      destruct (push_back_spec x v Hwf) as (v1 & -> & Hwf1 & Hs1 & _);
        [lia|]. simpl.
      rewrite <- Hs1. apply IH; [done|lia].
    - simpl in *. pose proof Hwf as (Hl & Hs & Hcap).
      destruct (pop_back_spec v Hwf) as (v1 & -> & Hwf1 & _ & Hs1 & _). simpl.
      replace (Z.max 0 (sz v - 1)) with (sz v1)
        by (rewrite Hs1; destruct (Z.eqb_spec (sz v) 0); lia).
      apply IH; [done|].
      destruct (Z.eqb_spec (sz v) 0); lia. }
  intros v Hwf Hbound. destruct (Hmain v Hwf Hbound) as (v' & Hrun & Hsz).
  exists v'. split_and!; [done..|].
  intros Hnz. rewrite Hsz. by apply counter_no_pop_at_zero.
Qed.

(** *** The capacity never shrinks *)

Lemma reserve_cap c v v' : reserve c v = Ok v' → cap v ≤ cap v'.
Proof.
  unfold reserve. destruct (Z.ltb_spec (cap v) c) as [Hlt|Hge].
  - intros (b & _ & [= <-])%bind_Ok. simpl. lia.
  - intros [= <-]. lia.
Qed.

Lemma push_back_cap r v v' : push_back r v = Ok v' → cap v ≤ cap v'.
Proof.
  unfold push_back.
  intros (v1 & Hv1 & (x & _ & (b & _ & [= <-])%bind_Ok)%bind_Ok)%bind_Ok.
  simpl. destruct (sz v =? cap v).
  - by apply reserve_cap in Hv1.
  - injection Hv1 as <-. lia.
Qed.

Lemma push_back_incremental_cap r v v' :
  push_back_incremental r v = Ok v' → cap v ≤ cap v'.
Proof.
  unfold push_back_incremental.
  intros (v1 & Hv1 & (x & _ & (b & _ & [= <-])%bind_Ok)%bind_Ok)%bind_Ok.
  simpl. destruct (sz v =? cap v).
  - by apply reserve_cap in Hv1.
  - injection Hv1 as <-. lia.
Qed.

Lemma pop_back_cap v v' : pop_back v = Ok v' → cap v' = cap v.
Proof.
  unfold pop_back. destruct (negb (empty v)).
  - by intros (b & _ & [= <-])%bind_Ok.
  - by intros [= <-].
Qed.

Lemma resize_cap n r v v' : resize n r v = Ok v' → cap v ≤ cap v'.
Proof.
  unfold resize. intros (v1 & Hshrink & Hgrow)%bind_Ok.
  apply (while_partial (λ s, cap v ≤ cap s)) in Hshrink as [H1 _]; [|..|lia].
  - apply (while_partial (λ s, cap v ≤ cap s)) in Hgrow as [H2 _]; [done|..|done].
    intros s s' Hs _ Hpush%push_back_cap. lia.
  - intros s s' Hs _ Hpop%pop_back_cap. lia.
Qed.

Lemma insert_cap i val v j v' : insert i val v = Ok (j, v') → cap v ≤ cap v'.
Proof.
  unfold insert. destruct (sz v <? cap v); [|intros [= _ <-]; lia].
  intros ([[tmp indx] v1] & Hloop & (b & _ & [= _ <-])%bind_Ok)%bind_Ok. simpl.
  apply (while_partial (λ st, cap v ≤ cap st.2)) in Hloop as [H1 _];
    [done|..|simpl; lia].
  intros [[tmp1 indx1] s] [[tmp2 indx2] s'] Hs _. simpl in *.
  intros (s1 & Hpush%push_back_cap & [= _ _ <-])%bind_Ok.
  simpl. lia.
Qed.

Lemma erase_cap i v j v' : erase i v = Ok (j, v') → cap v' = cap v.
Proof.
  unfold erase. destruct (negb (empty v)); [|by intros [= _ <-]].
  intros ([tmp indx] & _ & ([k b] & _ & [= _ <-])%bind_Ok)%bind_Ok. done.
Qed.

Lemma clear_cap v v' : clear v = Ok v' → cap v' = cap v.
Proof.
  unfold clear. intros ([k v1] & Hloop & [= <-])%bind_Ok.
  apply (while_partial (λ st, cap st.2 = cap v)) in Hloop as [H1 _];
    [done|..|done].
  intros [k1 s] [k2 s'] Hs _. simpl in *.
  intros (s1 & Hpop%pop_back_cap & [= _ <-])%bind_Ok. congruence.
Qed.

(** *** Resizing *)

Lemma resize_shrink n v :
  wf v → 0 ≤ n →
  ∃ v1, while (Z.to_nat (sz v)) (λ v, n <? sz v) pop_back v = Ok v1
    ∧ wf v1 ∧ cap v1 = cap v ∧ sz v1 = Z.min n (sz v)
    ∧ elements v1 = take (Z.to_nat n) (elements v).
Proof.
  intros Hwf Hn. pose proof Hwf as (Hl & Hs & Hcap).
  destruct (while_total
    (λ s, wf s ∧ cap s = cap v ∧ Z.min n (sz v) ≤ sz s ≤ sz v
          ∧ elements s = take (Z.to_nat (sz s)) (elements v))
    (λ s, Z.to_nat (sz s - n)) (λ v, n <? sz v) pop_back)
    with (fuel := Z.to_nat (sz v)) (s := v)
    as (v1 & Hv1 & (Hwf1 & Hc1 & Hs1 & He1) & Hexit).
  - intros s (Hwfs & Hcs & Hss & Hes) Hcond. apply Z.ltb_lt in Hcond.
    destruct (pop_back_spec s Hwfs) as (s' & -> & Hwf' & Hc' & Hs' & He').
    destruct (Z.eqb_spec (sz s) 0) as [?|Hne]; [lia|].
    exists s'. split_and!; try done; try lia.
    rewrite He', Hes, Hs'. rewrite take_take. f_equal. lia.
  - split_and!; try done; try lia.
    unfold elements. rewrite take_take. f_equal. lia.
  - lia.
  - apply Z.ltb_ge in Hexit. exists v1. split_and!; try done; try lia.
    rewrite He1. destruct (decide (n ≤ sz v)) as [Hle|Hgt].
    + f_equal. lia.
    + rewrite !take_ge; try done; rewrite elements_length by done; lia.
Qed.

Lemma resize_grow n val v :
  wf v → n ≤ cap v ∨ 2 * n ≤ size_max →
  ∃ v2, while (Z.to_nat n) (λ v, sz v <? n) (push_back (Obj val)) v = Ok v2
    ∧ wf v2 ∧ cap v ≤ cap v2 ∧ sz v2 = Z.max n (sz v)
    ∧ elements v2 = elements v ++ replicate (Z.to_nat (n - sz v)) val.
Proof.
  intros Hwf Hn. pose proof Hwf as (Hl & Hs & Hcap).
  destruct (while_total
    (λ s, wf s ∧ cap v ≤ cap s ∧ sz v ≤ sz s ≤ Z.max n (sz v)
          ∧ elements s = elements v ++ replicate (Z.to_nat (sz s - sz v)) val)
    (λ s, Z.to_nat (n - sz s)) (λ v, sz v <? n) (push_back (Obj val)))
    with (fuel := Z.to_nat n) (s := v)
    as (v2 & Hv2 & (Hwf2 & Hc2 & Hs2 & He2) & Hexit).
  - intros s (Hwfs & Hcs & Hss & Hes) Hcond. apply Z.ltb_lt in Hcond.
    pose proof Hwfs as (Hls & Hszs & Hcaps).
    destruct (push_back_spec val s Hwfs)
      as (s' & Hpush & Hwf' & Hs' & Hc' & Hx & Hget); [lia|].
    exists s'. split_and!; try done; try lia.
    + rewrite Hc'. destruct (sz s =? cap s); lia.
    + rewrite (push_back_elements val s s') by done. rewrite Hes, Hs'.
      replace (Z.to_nat (sz s + 1 - sz v)) with (S (Z.to_nat (sz s - sz v)))
        by lia.
      rewrite replicate_S_end. by rewrite app_assoc.
  - split_and!; try done; try lia.
    rewrite Z.sub_diag. simpl. by rewrite app_nil_r.
  - lia.
  - apply Z.ltb_ge in Hexit. exists v2. split_and!; try done; try lia.
    rewrite He2. do 2 f_equal. lia.
Qed.

(** [resize(n, val)] returns with size [n]: the first [n] elements are
    kept and every added slot holds [val]. *)
Lemma resize_spec n val v :
  wf v → 0 ≤ n → n ≤ cap v ∨ 2 * n ≤ size_max →
  ∃ v', resize n (Obj val) v = Ok v' ∧ wf v' ∧ cap v ≤ cap v' ∧ sz v' = n
    ∧ elements v' = take (Z.to_nat n) (elements v)
                    ++ replicate (Z.to_nat (n - sz v)) val.
Proof.
  intros Hwf Hn Hn2. unfold resize.
  destruct (resize_shrink n v Hwf Hn) as (v1 & -> & Hwf1 & Hc1 & Hs1 & He1).
  simpl.
  destruct (resize_grow n val v1 Hwf1) as (v2 & -> & Hwf2 & Hc2 & Hs2 & He2);
    [lia|].
  exists v2. split_and!; try done; try lia.
  rewrite He2, He1. do 2 f_equal. lia.
Qed.

(** *** Every modifier returns *)

Lemma clear_returns v :
  wf v → ∃ v', clear v = Ok v' ∧ wf v' ∧ cap v' = cap v.
Proof.
  intros Hwf. unfold clear.
  destruct (while_total
    (λ st : Z * vector T, wf st.2 ∧ cap st.2 = cap v)
    (λ st, Z.to_nat st.1)
    (λ st, 0 <? st.1) (λ st, v' ← pop_back st.2; Ok (st.1 - 1, v')))
    with (fuel := Z.to_nat (to_int (sz v))) (s := (to_int (sz v), v))
    as ([k v'] & Hloop & (Hwf' & Hc') & Hexit).
  - intros [k w] (Hwfw & Hcw) Hcond. simpl in *. apply Z.ltb_lt in Hcond.
    destruct (pop_back_spec w Hwfw) as (w' & -> & Hwf' & Hc' & _).
    simpl. eexists. split; [done|]. simpl. split_and!; [done|congruence|lia].
  - done.
  - simpl. lia.
  - rewrite Hloop. simpl. by exists v'.
Qed.

(** Every modifier returns on a well-formed vector, for admissible
    arguments, and leaves it well-formed. *)
Lemma modify_returns m v :
  wf v → admissible m v → ∃ v', modify m v = Ok v' ∧ wf v'.
Proof.
  intros Hwf Hadm. pose proof Hwf as (Hl & Hs & Hcap).
  destruct m as [c|n [val|j]|[val|j]|[val|j]| |i val|i|]; simpl in *;
    try (by destruct Hadm).
  - destruct (decide (cap v < c)) as [Hlt|Hge].
    + destruct (reserve_grow c v Hwf Hlt) as (v' & -> & Hc' & Hs' & Hl' & _).
      exists v'. split; [done|]. unfold wf. lia.
    + exists v. by rewrite reserve_no_grow by lia.
  - destruct Hadm as (_ & Hn & Hn2).
    destruct (resize_spec n val v Hwf Hn) as (v' & -> & Hwf' & _); [by right|].
    by exists v'.
  - destruct (push_back_spec val v Hwf (proj2 Hadm)) as (v' & -> & Hwf' & _).
    by exists v'.
  - destruct (push_back_incremental_spec val v Hwf (proj2 Hadm))
      as (v' & -> & Hwf' & _).
    by exists v'.
  - destruct (pop_back_spec v Hwf) as (v' & -> & Hwf' & _). by exists v'.
  - destruct (decide (sz v < cap v)) as [Hroom|Hfull].
    + destruct (insert_spec i val v Hwf Hroom (Hadm Hroom))
        as (y & v' & _ & -> & Hwf' & _). by exists v'.
    + unfold insert. rewrite (proj2 (Z.ltb_ge _ _)) by lia. by exists v.
  - destruct (decide (0 < sz v)) as [Hpos|Hempty].
    + destruct (erase_spec i v Hwf Hpos (Hadm Hpos)) as (v' & -> & Hwf' & _).
      by exists v'.
    + unfold erase, empty. rewrite (proj2 (Z.eqb_eq _ _)) by lia. by exists v.
  - destruct (clear_returns v Hwf) as (v' & -> & Hwf' & _). by exists v'.
Qed.

(** C7, amended: [reserve], [resize], [push_back],
    [push_back_incremental], [pop_back], [insert], [erase] and [clear]
    return on a well-formed vector, for admissible arguments, and never
    lower the capacity. The copy assignment from another vector takes the
    capacity of its source, whatever it was before; the self-assignment
    changes nothing. *)
Theorem capacity_monotone :
  (∀ m v v', modify m v = Ok v' → capacity v ≤ capacity v')
  ∧ (∀ m v, wf v → admissible m v → ∃ v', modify m v = Ok v' ∧ wf v')
  ∧ (∀ w v, wf w →
       ∃ w', assign (Some w) v = Ok w' ∧ capacity w' = capacity w)
  ∧ (∀ v, assign None v = Ok v).
Proof.
  unfold capacity. split_and!; [|apply modify_returns|..|done].
  - intros m v v' Hm.
    destruct m as [c|n r|r|r| |i val|i|]; simpl in Hm.
    + by apply reserve_cap in Hm.
    + by apply resize_cap in Hm.
    + by apply push_back_cap in Hm.
    + by apply push_back_incremental_cap in Hm.
    + apply pop_back_cap in Hm. lia.
    + apply bind_Ok in Hm as ([j v1] & Hi & [= <-]).
      by apply insert_cap in Hi.
    + apply bind_Ok in Hm as ([j v1] & Hi & [= <-]).
      apply erase_cap in Hi. lia.
    + apply clear_cap in Hm. lia.
  - intros w v (Hl & Hs & Hcap). simpl.
    destruct (copy_slots_Ok (Z.to_nat (sz w)) 0 (t w) (new_array (cap w)))
      as (b & Hb & _).
    { lia. }
    { pose proof (length_new_array (cap w)). lia. }
    change (Z.of_nat 0) with 0 in Hb. rewrite Hb. simpl. by eexists.
Qed.

End vector_proofs.

(** *** Concrete vectors of [Z] *)

(** The vector built by [push_back] of 1, 2, 3 on an empty vector, and a
    full vector. *)
Lemma v123_built :
  (v ← create 0 0; v ← push_back (Obj 1) v; v ← push_back (Obj 2) v;
   push_back (Obj 3) v)
  = Ok {| t := [1; 2; 3; 0; 0; 0; 0; 0; 0; 0]; cap := 10; sz := 3 |}.
Proof. reflexivity. Qed.

Lemma vfull_built :
  (v ← create 5 7; resize 10 (Obj 8) v)
  = Ok {| t := [7; 7; 7; 7; 7; 8; 8; 8; 8; 8]; cap := 10; sz := 10 |}.
Proof. reflexivity. Qed.

Ltac concrete_wf := unfold wf; cbn; unfold size_max; lia.

(** C1: [insert] at the front of [1, 2, 3] (capacity 10) with value 9.
    The loop of [insert] decrements [sz] after every internal [push_back],
    so that each of them writes the same slot [t[sz]]: the result is
    [9, 2, 3, 1] and not [9, 1, 2, 3]. *)
Theorem insert_front_misplaces :
  let v := {| t := [1; 2; 3; 0; 0; 0; 0; 0; 0; 0]; cap := 10; sz := 3 |} in
  let v' := {| t := [9; 2; 3; 1; 0; 0; 0; 0; 0; 0]; cap := 10; sz := 4 |} in
  size v < capacity v
  ∧ insert 0 9 v = Ok (0, v')
  ∧ elements v = [1; 2; 3]
  ∧ elements v' = [9; 2; 3; 1]
  ∧ elements v' ≠ [9; 1; 2; 3].
Proof. cbv zeta. split_and!; [done|reflexivity|reflexivity|reflexivity|]. by intros [=]. Qed.

Lemma at_checked_witness :
  let v := {| t := [1; 2; 3; 0; 0; 0; 0; 0; 0; 0]; cap := 10; sz := 3 |} in
  ((at_ 1 v).1 = Throw out_of_range ↔ size v ≤ 1)
  ∧ (∃ x, t v !! Z.to_nat 1 = Some x ∧ (at_ 1 v).1 = Ok x)
  ∧ (at_ 1 v).2 = v.
Proof.
  cbv zeta.
  destruct (at_checked 1
    {| t := [1; 2; 3; 0; 0; 0; 0; 0; 0; 0]; cap := 10; sz := 3 |})
    as (Hthrow & Hget & Hsame); [concrete_wf|lia|].
  split_and!; [exact Hthrow|apply Hget; cbn; lia|exact Hsame].
Defined.

(** The failing input of C5: [v.push_back(v[0])] on the full vector
    [7, 7, 7, 7, 7, 8, 8, 8, 8, 8], where [v[0]] is the element 7. *)
Lemma push_back_full_witness :
  let v := {| t := [7; 7; 7; 7; 7; 8; 8; 8; 8; 8]; cap := 10; sz := 10 |} in
  (∃ v', push_back (Obj 5) v = Ok v' ∧ capacity v' = 2 * capacity v
         ∧ t v' !! Z.to_nat (size v) = Some 5 ∧ size v' = size v + 1)
  ∧ (∃ v', push_back_incremental (Obj 5) v = Ok v'
         ∧ capacity v' = capacity v + 1
         ∧ t v' !! Z.to_nat (size v) = Some 5 ∧ size v' = size v + 1)
  ∧ index 0 v = Ok 7
  ∧ push_back (Slot 0) v = Undef
  ∧ push_back_incremental (Slot 0) v = Undef.
Proof.
  cbv zeta.
  destruct (push_back_full 5 0
    {| t := [7; 7; 7; 7; 7; 8; 8; 8; 8; 8]; cap := 10; sz := 10 |})
    as (Hdouble & Hincr & Hslot & Hslot'); [concrete_wf|reflexivity|].
  split_and!; [apply Hdouble|apply Hincr|reflexivity|exact Hslot|exact Hslot'];
    cbn; unfold size_max; lia.
Defined.

Lemma insert_full_unchanged_witness :
  let v := {| t := [7; 7; 7; 7; 7; 8; 8; 8; 8; 8]; cap := 10; sz := 10 |} in
  insert 2 9 v = Ok (2, v).
Proof. cbv zeta. apply insert_full_unchanged. reflexivity. Defined.

(** C6 as stated fails: a [pop_back] on an empty vector is not counted.
    After [pop_back(); push_back(7)] on an empty vector the size is 1, and
    not 0 + 1 - 1. *)
Lemma push_pop_size_counterexample :
  let v := {| t := replicate 10 0; cap := 10; sz := 0 |} in
  let ops := [Pop; Push 7] in
  create 0 0 = Ok v
  ∧ ∃ v', run ops v = Ok v' ∧ size v' = 1
          ∧ size v' ≠ size v + pushes ops - pops ops.
Proof.
  cbv zeta. split; [reflexivity|]. eexists. split_and!; [reflexivity..|].
  vm_compute. by intros [=].
Qed.

Lemma push_pop_size_witness :
  let v := {| t := [1; 2; 3; 0; 0; 0; 0; 0; 0; 0]; cap := 10; sz := 3 |} in
  let ops := [Pop; Push 7; Push 8; Pop; Pop] in
  ∃ v', run ops v = Ok v'
    ∧ size v' = counter (size v) ops
    ∧ size v' = size v + pushes ops - pops ops.
Proof.
  cbv zeta.
  destruct (push_pop_size [Pop; Push 7; Push 8; Pop; Pop]
    {| t := [1; 2; 3; 0; 0; 0; 0; 0; 0; 0]; cap := 10; sz := 3 |})
    as (v' & Hrun & Hcounter & Hnet);
    [concrete_wf|cbn; unfold size_max; lia|].
  exists v'. split_and!; [exact Hrun|exact Hcounter|].
  apply Hnet. cbn. lia.
Defined.

(** C7 as stated fails for the copy assignment: a vector of capacity 20
    that is assigned a vector of capacity 10 has capacity 10 afterwards. *)
Lemma assign_lowers_capacity :
  let v := {| t := replicate 10 0 ++ replicate 10 0; cap := 20; sz := 10 |} in
  let w := {| t := replicate 10 0; cap := 10; sz := 0 |} in
  create 10 0 = Ok v ∧ create 0 0 = Ok w
  ∧ ∃ v', assign (Some w) v = Ok v' ∧ capacity v' = 10
          ∧ ¬ (capacity v ≤ capacity v').
Proof.
  cbv zeta. split_and!; [reflexivity..|]. eexists. split_and!; [reflexivity..|].
  vm_compute. by intros H; apply H.
Qed.

Lemma capacity_monotone_witness :
  let v := {| t := [7; 7; 7; 7; 7; 8; 8; 8; 8; 8]; cap := 10; sz := 10 |} in
  let v' := {| t := [7; 7; 7; 7; 7; 8; 8; 8; 8; 8; 5] ++ replicate 9 0;
               cap := 20; sz := 11 |} in
  let w := {| t := replicate 10 0; cap := 10; sz := 0 |} in
  modify (PushBack (Obj 5)) v = Ok v'
  ∧ capacity v ≤ capacity v'
  ∧ (∃ w', modify (Insert 0 9) w = Ok w' ∧ wf w')
  ∧ ∃ w', assign (Some w) v = Ok w' ∧ capacity w' = capacity w.
Proof.
  cbv zeta.
  destruct (@capacity_monotone Z _) as (Hmod & Hret & Hassign & _).
  split_and!; [reflexivity| | |].
  - eapply Hmod with (m := PushBack (Obj 5)). reflexivity.
  - apply Hret; [concrete_wf|]. cbn. lia.
  - apply Hassign. concrete_wf.
Defined.

End vector_proofs.

(** ** list.h: proofs *)

Module list_proofs.
Import list_.
Section list_proofs.
Context {T : Type} `{DefaultConstructible T}.
Implicit Types (l : list_ T) (h : gmap positive (node T)).
Implicit Types (ls : list positive) (vs : list T) (a : positive) (p : ptr).
Implicit Types (val x : T) (nd : node T).

Lemma is_list_elem_of_dom l ls vs a : is_list l ls vs → a ∈ ls → a ∈ dom (mem l).
Proof.
  intros Hl Ha. rewrite (is_list_dom _ _ _ Hl). by rewrite elem_of_list_to_set.
Qed.

Lemma is_list_fresh l ls vs : is_list l ls vs → fresh (dom (mem l)) ∉ ls.
Proof.
  intros Hl Hin. apply (is_fresh (dom (mem l))).
  by eapply is_list_elem_of_dom.
Qed.

Lemma before_app ls ls' (i : nat) :
  (i ≤ length ls)%nat → before (ls ++ ls') i = before ls i.
Proof. destruct i as [|j]; [done|]. simpl. intros Hj. by rewrite lookup_app_l by lia. Qed.

(** [push_back] on a list in its invariant: a fresh node is linked
    after the last one. *)
Lemma list_push_back_spec val l ls vs :
  is_list l ls vs → sz l + 1 < size_max →
  ∃ l', push_back val l = Ok l'
    ∧ is_list l' (ls ++ [fresh (dom (mem l))]) (vs ++ [val])
    ∧ sz l' = sz l + 1.
Proof.
  intros Hl Hmax. pose proof (is_list_fresh _ _ _ Hl) as Hfresh.
  destruct Hl as [Hnd [Hlen Hch] Hdom Hhd Htl Hsz _].
  set (m := fresh (dom (mem l))) in *.
  unfold push_back, empty, new_node. fold m.
  destruct (Z.eqb_spec (sz l) 0) as [H0|Hne].
  - assert (ls = []) as -> by (destruct ls; [done|simpl in *; lia]).
    assert (vs = []) as -> by (destruct vs; [done|simpl in *; lia]).
    eexists. split; [done|]. rewrite wrap_small by lia.
    split; [|simpl; lia]. split; simpl.
    + apply NoDup_singleton.
    + split; [done|]. intros [|i] a; [|done]. intros [= <-].
      exists val. split; [done|]. by rewrite lookup_insert_eq.
    + rewrite dom_insert_L, Hdom. set_solver.
    + done.
    + done.
    + lia.
    + lia.
  - assert (∃ n tl, length ls = S n ∧ ls !! n = Some tl) as (n & tl & Hn & Htln).
    { destruct (length ls) as [|n] eqn:E; [lia|]. exists n.
      destruct (lookup_lt_is_Some_2 ls n) as [tl Htl']; [lia|]. by exists tl. }
    assert (tail l = Some tl) as Htl'.
    { rewrite Htl, last_lookup, Hn. done. }
    destruct (Hch n tl Htln) as (xt & Hxt & Hnode).
    assert (tl ≠ m) as Hne_m.
    { intros ->. apply Hfresh. by eapply list_elem_of_lookup_2. }
    rewrite Htl'. simpl. rewrite lookup_insert_ne by done. rewrite Hnode.
    simpl. rewrite wrap_small by lia. eexists. split; [done|].
    split; [|simpl; lia]. split; simpl.
    + apply NoDup_app. split_and!; [done| |apply NoDup_singleton].
      intros a Ha ->%list_elem_of_singleton. done.
    + split; [by rewrite !length_app, Hlen|]. intros i a Hi.
      destruct (decide (i < n)%nat) as [Hlt|Hge].
      * rewrite lookup_app_l in Hi by lia.
        destruct (Hch i a Hi) as (x & Hx & Ha). exists x.
        split; [by rewrite lookup_app_l by lia|].
        assert (a ≠ tl).
        { intros ->. pose proof (NoDup_lookup _ _ _ _ Hnd Hi Htln). lia. }
        assert (a ≠ m).
        { intros ->. apply Hfresh. by eapply list_elem_of_lookup_2. }
        rewrite !lookup_insert_ne by done. rewrite Ha.
        rewrite before_app by lia. by rewrite (lookup_app_l _ _ (S i)) by lia.
      * destruct (decide (i = n)) as [->|Hne'].
        -- rewrite lookup_app_l in Hi by lia. rewrite Htln in Hi.
           injection Hi as <-. exists xt. split; [by rewrite lookup_app_l by lia|].
           rewrite lookup_insert_eq. rewrite before_app by lia.
           rewrite lookup_app_r by lia. rewrite Hn, Nat.sub_diag. done.
        -- assert (i = S n) as ->.
           { apply lookup_lt_Some in Hi. rewrite length_app in Hi. simpl in Hi. lia. }
           rewrite lookup_app_r in Hi by lia. rewrite Hn, Nat.sub_diag in Hi.
           injection Hi as <-. exists val.
           split; [by rewrite lookup_app_r, Hlen, Hn, Nat.sub_diag by lia|].
           rewrite lookup_insert_ne by done. rewrite lookup_insert_eq.
           simpl. rewrite lookup_app_l by lia. rewrite Htln.
           rewrite lookup_app_r by (simpl; lia). rewrite Hn.
           replace (S (S n) - S n)%nat with 1%nat by lia. done.
    + rewrite !dom_insert_L, Hdom, list_to_set_app_L. simpl.
      apply list_elem_of_lookup_2 in Htln. set_solver.
    + rewrite Hhd. destruct ls; [done|done].
    + by rewrite last_snoc.
    + rewrite length_app. simpl. lia.
    + lia.
Qed.

Lemma is_list_length l ls vs : is_list l ls vs → length vs = length ls.
Proof. intros Hl. by destruct (is_list_chain _ _ _ Hl). Qed.

Lemma list_pop_back_nil l : is_list l [] [] → pop_back l = Ok l.
Proof.
  intros Hl. unfold pop_back, empty. rewrite (is_list_sz _ _ _ Hl). done.
Qed.

(** [pop_back] on a non-empty list in its invariant: the last node is
    freed and the one before it becomes the last. *)
Lemma list_pop_back_snoc l ls a vs x :
  is_list l (ls ++ [a]) (vs ++ [x]) →
  ∃ l', pop_back l = Ok l' ∧ is_list l' ls vs ∧ sz l' = sz l - 1.
Proof.
  intros [Hnd [Hlen Hch] Hdom Hhd Htl Hsz Hmax].
  rewrite length_app in Hsz. rewrite !length_app in Hlen. simpl in *.
  rewrite last_snoc in Htl.
  apply NoDup_app in Hnd as (Hnd & Hnotin & _).
  assert (a ∉ ls) as Ha by (intros Hin; eapply Hnotin; [done|set_solver]).
  destruct (Hch (length ls) a) as (xa & Hxa & Hnode).
  { by rewrite lookup_app_r, Nat.sub_diag by lia. }
  unfold pop_back, empty.
  rewrite (proj2 (Z.eqb_neq _ _)) by lia.
  destruct (Z.eqb_spec (sz l) 1) as [H1|Hne1].
  - assert (ls = []) as -> by (destruct ls; [done|simpl in *; lia]).
    assert (vs = []) as -> by (destruct vs; [done|simpl in *; lia]).
    rewrite Htl. simpl. rewrite Hnode. simpl. eexists. split; [done|].
    rewrite H1. split; [|done]. split; simpl; try done.
    rewrite dom_delete_L, Hdom. set_solver.
  - assert (∃ n a', length ls = S n ∧ ls !! n = Some a') as (n & a' & Hn & Ha').
    { destruct (length ls) as [|n] eqn:E; [lia|]. exists n.
      destruct (lookup_lt_is_Some_2 ls n) as [a' Ha']; [lia|]. by exists a'. }
    assert (a' ≠ a) as Hne.
    { intros ->. apply Ha. by eapply list_elem_of_lookup_2. }
    destruct (Hch n a') as (x' & Hx' & Hnode').
    { by rewrite lookup_app_l by lia. }
    rewrite Htl. simpl. rewrite Hnode. simpl.
    rewrite Hn in Hnode. simpl in Hnode.
    rewrite Hn. simpl. rewrite lookup_app_l by lia. rewrite Ha'. simpl.
    rewrite Hnode'. simpl.
    rewrite lookup_app_r by lia. rewrite Hn, Nat.sub_diag. simpl.
    rewrite Hnode. simpl.
    rewrite lookup_delete_ne by done. rewrite Hnode'. simpl.
    rewrite wrap_small by lia. eexists. split; [done|].
    split; [|done]. split; simpl.
    + done.
    + split; [lia|]. intros i b Hi. pose proof (lookup_lt_Some _ _ _ Hi) as Hlt.
      destruct (Hch i b) as (xb & Hxb & Hb).
      { by rewrite lookup_app_l by lia. }
      rewrite lookup_app_l in Hxb by lia. exists xb. split; [done|].
      rewrite before_app in Hb by lia.
      destruct (decide (i = n)) as [->|Hin].
      * rewrite Ha' in Hi. injection Hi as <-. rewrite lookup_insert_eq.
        assert (x' = xb) as -> by congruence.
        rewrite before_app by lia.
        rewrite (lookup_ge_None_2 ls (S n)) by lia. done.
      * assert (b ≠ a').
        { intros ->. pose proof (NoDup_lookup _ _ _ _ Hnd Hi Ha'). lia. }
        assert (b ≠ a).
        { intros ->. apply Ha. by eapply list_elem_of_lookup_2. }
        rewrite lookup_insert_ne, lookup_delete_ne by done. rewrite Hb.
        by rewrite lookup_app_l by lia.
    + rewrite dom_insert_L, dom_delete_L, Hdom, list_to_set_app_L. simpl.
      apply list_elem_of_lookup_2 in Ha'. set_solver.
    + rewrite Hhd. destruct ls; [simpl in *; lia|done].
    + by rewrite last_lookup, Hn.
    + lia.
    + lia.
Qed.

Lemma snoc_inv {A : Type} (ys : list A) :
  (0 < length ys)%nat → ∃ (ys0 : list A) (y : A), ys = ys0 ++ [y].
Proof.
  induction ys as [|y ys0 _] using rev_ind; simpl; [lia|]. intros _. eauto.
Qed.

Lemma take_snoc_pred {A : Type} (ys : list A) (y : A) :
  take (length (ys ++ [y]) - 1) (ys ++ [y]) = ys.
Proof.
  rewrite length_app. simpl.
  replace (length ys + 1 - 1)%nat with (length ys) by lia.
  by rewrite take_app_length.
Qed.

(** [pop_back] in general: all but the last node and value remain. *)
Lemma list_pop_back_spec l ls vs :
  is_list l ls vs → 0 < sz l →
  ∃ l', pop_back l = Ok l'
    ∧ is_list l' (take (length ls - 1) ls) (take (length vs - 1) vs)
    ∧ sz l' = sz l - 1.
Proof.
  intros Hl Hpos. pose proof (is_list_sz _ _ _ Hl) as Hsz.
  pose proof (is_list_length _ _ _ Hl) as Hlen.
  destruct (snoc_inv ls) as (ls0 & a & ->); [lia|].
  destruct (snoc_inv vs) as (vs0 & x & ->); [lia|].
  rewrite !take_snoc_pred. by apply list_pop_back_snoc with a x.
Qed.

(** [push_front] on a list in its invariant: a fresh node is linked
    before the first one. *)
Lemma list_push_front_spec val l ls vs :
  is_list l ls vs → sz l + 1 < size_max →
  ∃ l', push_front val l = Ok l'
    ∧ is_list l' (fresh (dom (mem l)) :: ls) (val :: vs)
    ∧ sz l' = sz l + 1.
Proof.
  intros Hl Hmax. pose proof (is_list_fresh _ _ _ Hl) as Hfresh.
  destruct Hl as [Hnd [Hlen Hch] Hdom Hhd Htl Hsz _].
  set (m := fresh (dom (mem l))) in *.
  unfold push_front, empty, new_node. fold m.
  destruct (Z.eqb_spec (sz l) 0) as [H0|Hne].
  - assert (ls = []) as -> by (destruct ls; [done|simpl in *; lia]).
    assert (vs = []) as -> by (destruct vs; [done|simpl in *; lia]).
    eexists. split; [done|]. rewrite wrap_small by lia.
    split; [|simpl; lia]. split; simpl; try done; try lia.
    + apply NoDup_singleton.
    + split; [done|]. intros [|i] a; [|done]. intros [= <-].
      exists val. split; [done|]. by rewrite lookup_insert_eq.
    + rewrite dom_insert_L, Hdom. set_solver.
  - destruct ls as [|hd ls]; [simpl in *; lia|].
    destruct vs as [|x0 vs]; [done|].
    destruct (Hch 0%nat hd) as (x & [= <-] & Hnode); [done|].
    assert (hd ≠ m) as Hne_m by (intros ->; apply Hfresh; set_solver).
    rewrite Hhd. simpl. rewrite lookup_insert_ne by done. rewrite Hnode.
    simpl. rewrite wrap_small by lia. eexists. split; [done|].
    split; [|simpl; lia]. split; simpl; try done; try lia.
    + by apply NoDup_cons.
    + split; [simpl in *; lia|]. intros [|[|i]] a Hi; simpl in Hi.
      * injection Hi as <-. exists val. split; [done|].
        rewrite lookup_insert_ne by done. by rewrite lookup_insert_eq.
      * injection Hi as <-. exists x0. split; [done|].
        by rewrite lookup_insert_eq.
      * destruct (Hch (S i) a Hi) as (x & Hx & Ha). exists x. split; [done|].
        assert (a ≠ hd).
        { intros ->. by pose proof (NoDup_lookup _ 0%nat (S i) _ Hnd eq_refl Hi). }
        assert (a ≠ m).
        { intros ->. apply Hfresh. by eapply (list_elem_of_lookup_2 _ (S i)). }
        rewrite !lookup_insert_ne by done. by rewrite Ha.
    + rewrite !dom_insert_L, Hdom. set_solver.
    + simpl in Hsz. lia.
Qed.

Lemma list_pop_front_nil l : is_list l [] [] → pop_front l = Ok l.
Proof.
  intros Hl. unfold pop_front, empty. rewrite (is_list_sz _ _ _ Hl). done.
Qed.

(** [pop_front] on a non-empty list in its invariant: the first node is
    freed and the second becomes the first. *)
Lemma list_pop_front_cons l a ls x vs :
  is_list l (a :: ls) (x :: vs) →
  ∃ l', pop_front l = Ok l' ∧ is_list l' ls vs ∧ sz l' = sz l - 1.
Proof.
  intros [Hnd [Hlen Hch] Hdom Hhd Htl Hsz Hmax]. simpl in *.
  apply NoDup_cons in Hnd as [Ha Hnd].
  destruct (Hch 0%nat a) as (xa & [= <-] & Hnode); [done|]. simpl in Hnode.
  unfold pop_front, empty.
  rewrite (proj2 (Z.eqb_neq _ _)) by lia.
  destruct (Z.eqb_spec (sz l) 1) as [H1|Hne1].
  - assert (ls = []) as -> by (destruct ls; [done|simpl in *; lia]).
    assert (vs = []) as -> by (destruct vs; [done|simpl in *; lia]).
    rewrite Hhd. simpl. rewrite Hnode. simpl. eexists. split; [done|].
    rewrite H1. split; [|done]. split; simpl; try done.
    rewrite dom_delete_L, Hdom. set_solver.
  - destruct ls as [|a1 ls]; [simpl in *; lia|].
    destruct vs as [|x1 vs]; [done|].
    destruct (Hch 1%nat a1) as (x' & [= <-] & Hnode1); [done|]. simpl in Hnode1.
    assert (a1 ≠ a) as Hne by (intros ->; apply Ha; set_solver).
    rewrite Hhd. simpl. rewrite Hnode. simpl. rewrite Hnode1. simpl.
    rewrite Hnode. simpl. rewrite lookup_delete_ne by done. rewrite Hnode1.
    simpl. rewrite wrap_small by lia. eexists. split; [done|].
    split; [|done]. split; simpl; try done; try lia.
    + split; [simpl in *; lia|]. intros [|i] b Hi; simpl in Hi.
      * injection Hi as <-. exists x1. split; [done|].
        by rewrite lookup_insert_eq.
      * destruct (Hch (S (S i)) b Hi) as (xb & Hxb & Hb).
        exists xb. split; [done|].
        assert (b ≠ a1).
        { intros ->. apply NoDup_cons in Hnd as [Hnotin _]. apply Hnotin.
          by eapply list_elem_of_lookup_2. }
        assert (b ≠ a).
        { intros ->. apply Ha. right. by eapply list_elem_of_lookup_2. }
        rewrite lookup_insert_ne, lookup_delete_ne by done. by rewrite Hb.
    + rewrite dom_insert_L, dom_delete_L, Hdom. set_solver.
    + simpl in Hsz. lia.
Qed.

(** *** Insertion and removal inside the chain *)

(** Positions in a list with one more element in the middle. *)
Lemma lookup_middle_insert {A : Type} (ys1 ys2 : list A) (c : A) (j : nat) :
  (ys1 ++ c :: ys2) !! j =
    if decide (j < length ys1)%nat then (ys1 ++ ys2) !! j
    else if decide (j = length ys1) then Some c
    else (ys1 ++ ys2) !! (j - 1)%nat.
Proof.
  repeat case_decide.
  - by rewrite !lookup_app_l by lia.
  - subst j. by rewrite lookup_app_r, Nat.sub_diag by lia.
  - rewrite !lookup_app_r by lia.
    destruct (j - length ys1)%nat as [|k] eqn:E; [lia|]. simpl.
    f_equal. lia.
Qed.

Lemma before_middle_insert (ys1 ys2 : list positive) (c : positive) (j : nat) :
  before (ys1 ++ c :: ys2) j =
    if decide (j ≤ length ys1)%nat then before (ys1 ++ ys2) j
    else if decide (j = S (length ys1)) then Some c
    else before (ys1 ++ ys2) (j - 1).
Proof.
  destruct j as [|j]; simpl; [done|]. rewrite lookup_middle_insert.
  repeat case_decide; try lia; try done.
  destruct j as [|j]; [lia|]. simpl. by rewrite Nat.sub_0_r.
Qed.

(** [insert] before a node that is not the first: a fresh node is linked
    between it and its predecessor. *)
Lemma list_insert_middle val l ls1 a ls2 vs1 x vs2 :
  is_list l (ls1 ++ a :: ls2) (vs1 ++ x :: vs2) →
  length vs1 = length ls1 → ls1 ≠ [] → sz l + 1 < size_max →
  ∃ l', insert (Some a) val l = Ok (Some a, l')
    ∧ is_list l' (ls1 ++ fresh (dom (mem l)) :: a :: ls2) (vs1 ++ val :: x :: vs2)
    ∧ sz l' = sz l + 1.
Proof.
  intros Hl Hlen1 Hl1 Hmax. pose proof (is_list_fresh _ _ _ Hl) as Hfresh.
  destruct Hl as [Hnd [Hlen Hch] Hdom Hhd Htl Hsz _].
  assert (0 < length ls1)%nat as Hk by (destruct ls1; [done|simpl; lia]).
  set (m := fresh (dom (mem l))) in *. set (k := length ls1) in *.
  assert ((ls1 ++ a :: ls2) !! k = Some a) as Hka.
  { by rewrite lookup_app_r, Nat.sub_diag by lia. }
  destruct (lookup_lt_is_Some_2 (ls1 ++ a :: ls2) (k - 1)) as [pa Hpa].
  { rewrite length_app. lia. }
  destruct (Hch k a Hka) as (x' & Hx' & Hnode).
  assert (x' = x) as ->.
  { rewrite lookup_app_r, Hlen1, Nat.sub_diag in Hx' by lia. by injection Hx'. }
  assert (before (ls1 ++ a :: ls2) k = Some pa) as Hbefore.
  { replace k with (S (k - 1)) by lia. exact Hpa. }
  rewrite Hbefore in Hnode.
  destruct (Hch (k - 1)%nat pa Hpa) as (xp & Hxp & Hnodep).
  replace (S (k - 1)) with k in Hnodep by lia. rewrite Hka in Hnodep.
  assert (a ≠ m) as Ham.
  { intros ->. apply Hfresh. by eapply list_elem_of_lookup_2. }
  assert (pa ≠ m) as Hpm.
  { intros ->. apply Hfresh. by eapply list_elem_of_lookup_2. }
  assert (pa ≠ a) as Hpaa.
  { intros ->. pose proof (NoDup_lookup _ _ _ _ Hnd Hpa Hka). lia. }
  unfold insert, begin_, end_.
  rewrite decide_False.
  2: { rewrite Hhd. intros Heq. symmetry in Heq.
       pose proof (NoDup_lookup _ _ _ _ Hnd Heq Hka). lia. }
  rewrite decide_False by done.
  simpl. rewrite Hnode. simpl. unfold new_node. fold m.
  rewrite lookup_insert_ne by done. rewrite Hnode. simpl.
  rewrite lookup_insert_ne by done. rewrite Hnodep. simpl.
  rewrite lookup_insert_ne by done. rewrite lookup_insert_ne by done.
  rewrite Hnode. simpl. rewrite wrap_small by lia.
  eexists. split; [done|]. split; [|done]. split; simpl.
  - apply NoDup_app in Hnd as (Hnd1 & Hdisj & Hnd2).
    apply NoDup_app. split_and!; [done| |].
    + intros b Hb [->|Hin]%elem_of_cons; [|by eapply Hdisj].
      apply Hfresh. set_solver.
    + apply NoDup_cons. split; [|done]. intros Hin. apply Hfresh. set_solver.
  - split; [rewrite !length_app in *; simpl in *; lia|].
    intros j b Hj.
    rewrite (lookup_middle_insert ls1 (a :: ls2) m j) in Hj. fold k in Hj.
    rewrite (lookup_middle_insert vs1 (x :: vs2) val j), Hlen1. fold k.
    rewrite (before_middle_insert ls1 (a :: ls2) m j).
    rewrite (lookup_middle_insert ls1 (a :: ls2) m (S j)). fold k.
    destruct (decide (j < k)%nat) as [Hjk|Hjk].
    + destruct (Hch j b Hj) as (xb & Hxb & Hb). exists xb. split; [done|].
      assert (b ≠ a).
      { intros ->. pose proof (NoDup_lookup _ _ _ _ Hnd Hj Hka). lia. }
      assert (b ≠ m).
      { intros ->. apply Hfresh. by eapply list_elem_of_lookup_2. }
      rewrite lookup_insert_ne by done.
      destruct (decide (j = k - 1)%nat) as [->|Hne].
      * assert (b = pa) as -> by congruence. rewrite lookup_insert_eq.
        assert (xb = xp) as -> by congruence.
        repeat (case_decide; try lia). done.
      * assert (b ≠ pa).
        { intros ->. pose proof (NoDup_lookup _ _ _ _ Hnd Hj Hpa). lia. }
        rewrite !lookup_insert_ne by done. rewrite Hb.
        repeat (case_decide; try lia). done.
    + destruct (decide (j = k)) as [->|Hjk'].
      * injection Hj as <-. exists val. split; [done|].
        rewrite !lookup_insert_ne by done. rewrite lookup_insert_eq.
        repeat (case_decide; try lia). rewrite Hbefore.
        replace (S k - 1)%nat with k by lia. by rewrite Hka.
      * destruct (Hch (j - 1)%nat b Hj) as (xb & Hxb & Hb).
        exists xb. split; [done|].
        replace (S (j - 1)) with j in Hb by lia.
        destruct (decide (j = S k)) as [->|Hne].
        -- replace (S k - 1)%nat with k in * by lia.
           assert (b = a) as -> by congruence. rewrite lookup_insert_eq.
           assert (xb = x) as -> by congruence.
           repeat (case_decide; try lia).
           by replace (S (S k) - 1)%nat with (S k) by lia.
        -- assert (b ≠ a).
           { intros ->. pose proof (NoDup_lookup _ _ _ _ Hnd Hj Hka). lia. }
           assert (b ≠ pa).
           { intros ->. pose proof (NoDup_lookup _ _ _ _ Hnd Hj Hpa). lia. }
           assert (b ≠ m).
           { intros ->. apply Hfresh. by eapply list_elem_of_lookup_2. }
           rewrite !lookup_insert_ne by done. rewrite Hb.
           repeat (case_decide; try lia).
           by replace (S j - 1)%nat with j by lia.
  - rewrite !dom_insert_L, Hdom, !list_to_set_app_L. simpl.
    apply list_elem_of_lookup_2 in Hpa.
    rewrite elem_of_app in Hpa. set_solver.
  - rewrite Hhd. destruct ls1; [done|done].
  - rewrite Htl. rewrite !last_app. simpl. by destruct ls2.
  - rewrite Hsz, !length_app. simpl. lia.
  - lia.
Qed.

Lemma lookup_middle_lt {A : Type} (ys1 ys2 : list A) (c : A) (j : nat) :
  (j < length ys1)%nat → (ys1 ++ c :: ys2) !! j = (ys1 ++ ys2) !! j.
Proof. intros Hj. rewrite lookup_middle_insert. by rewrite decide_True. Qed.

Lemma lookup_middle_ge {A : Type} (ys1 ys2 : list A) (c : A) (j : nat) :
  (length ys1 ≤ j)%nat → (ys1 ++ c :: ys2) !! S j = (ys1 ++ ys2) !! j.
Proof.
  intros Hj. rewrite lookup_middle_insert.
  repeat (case_decide; try lia). f_equal. lia.
Qed.

Lemma before_middle_le (ys1 ys2 : list positive) (c : positive) (j : nat) :
  (j ≤ length ys1)%nat → before (ys1 ++ c :: ys2) j = before (ys1 ++ ys2) j.
Proof. intros Hj. rewrite before_middle_insert. by rewrite decide_True. Qed.

Lemma before_middle_gt (ys1 ys2 : list positive) (c : positive) (j : nat) :
  (length ys1 < j)%nat → before (ys1 ++ c :: ys2) (S j) = before (ys1 ++ ys2) j.
Proof.
  intros Hj. rewrite before_middle_insert.
  repeat (case_decide; try lia). f_equal. lia.
Qed.

(** [erase] at a node with a predecessor and a successor: the two are
    linked to each other and the node is freed. *)
Lemma list_erase_middle l ls1 a ls2 vs1 x vs2 :
  is_list l (ls1 ++ a :: ls2) (vs1 ++ x :: vs2) →
  length vs1 = length ls1 → ls1 ≠ [] → ls2 ≠ [] →
  ∃ l', erase (Some a) l = Ok (Some a, l')
    ∧ is_list l' (ls1 ++ ls2) (vs1 ++ vs2)
    ∧ sz l' = sz l - 1.
Proof.
  intros [Hnd [Hlen Hch] Hdom Hhd Htl Hsz Hmax] Hlen1 Hl1 Hl2.
  assert (0 < length ls1)%nat as Hk by (destruct ls1; [done|simpl; lia]).
  assert (0 < length ls2)%nat as Hk2 by (destruct ls2; [done|simpl; lia]).
  rewrite length_app in Hsz. rewrite !length_app in Hlen. simpl in Hsz, Hlen.
  set (k := length ls1) in *.
  assert ((ls1 ++ a :: ls2) !! k = Some a) as Hka.
  { by rewrite lookup_app_r, Nat.sub_diag by lia. }
  destruct (lookup_lt_is_Some_2 (ls1 ++ a :: ls2) (k - 1)) as [pa Hpa].
  { rewrite length_app. lia. }
  destruct (lookup_lt_is_Some_2 (ls1 ++ a :: ls2) (S k)) as [na Hna].
  { rewrite length_app. simpl. lia. }
  destruct (Hch k a Hka) as (x' & Hx' & Hnode).
  assert (x' = x) as ->.
  { rewrite lookup_app_r, Hlen1, Nat.sub_diag in Hx' by lia. by injection Hx'. }
  assert (before (ls1 ++ a :: ls2) k = Some pa) as Hbefore.
  { replace k with (S (k - 1)) by lia. exact Hpa. }
  rewrite Hbefore, Hna in Hnode.
  destruct (Hch (k - 1)%nat pa Hpa) as (xp & Hxp & Hnodep).
  replace (S (k - 1)) with k in Hnodep by lia. rewrite Hka in Hnodep.
  destruct (Hch (S k) na Hna) as (xn & Hxn & Hnoden).
  simpl in Hnoden. rewrite Hka in Hnoden.
  assert (pa ≠ a) as Hpaa.
  { intros ->. pose proof (NoDup_lookup _ _ _ _ Hnd Hpa Hka). lia. }
  assert (na ≠ a) as Hnaa.
  { intros ->. pose proof (NoDup_lookup _ _ _ _ Hnd Hna Hka). lia. }
  assert (pa ≠ na) as Hpana.
  { intros ->. pose proof (NoDup_lookup _ _ _ _ Hnd Hpa Hna). lia. }
  rewrite lookup_middle_lt in Hpa by lia.
  rewrite lookup_middle_lt in Hxp by lia.
  rewrite before_middle_le in Hnodep by lia.
  rewrite lookup_middle_ge in Hna by lia.
  rewrite lookup_middle_ge in Hxn by lia.
  rewrite (lookup_middle_ge ls1 ls2 a (S k)) in Hnoden by lia.
  unfold erase, begin_, end_.
  rewrite decide_False.
  2: { rewrite Hhd. intros Heq. symmetry in Heq.
       pose proof (NoDup_lookup _ _ _ _ Hnd Heq Hka). lia. }
  rewrite decide_False by done.
  simpl. rewrite Hnode. simpl. rewrite Hnoden. simpl.
  rewrite lookup_insert_ne by done. rewrite Hnode. simpl.
  rewrite lookup_insert_ne by done. rewrite Hnodep. simpl.
  rewrite !lookup_insert_ne by done. rewrite Hnode. simpl.
  rewrite wrap_small by lia.
  eexists. split; [done|]. split; [|done].
  assert (NoDup (ls1 ++ ls2)) as Hnd'.
  { apply NoDup_app in Hnd as (Hnd1 & Hdisj & [_ Hnd2]%NoDup_cons).
    apply NoDup_app. split_and!; [done| |done].
    intros b Hb Hin. eapply Hdisj; [done|]. by right. }
  assert (a ∉ ls1 ++ ls2) as Hnotin.
  { apply NoDup_app in Hnd as (Hnd1 & Hdisj & [Ha2 Hnd2]%NoDup_cons).
    intros [Hin|Hin]%elem_of_app; [|done]. eapply Hdisj; [done|]. by left. }
  split; simpl.
  - done.
  - split; [rewrite !length_app; lia|].
    intros j b Hj.
    assert (b ≠ a) as Hba.
    { intros ->. apply Hnotin. by eapply list_elem_of_lookup_2. }
    rewrite lookup_delete_ne by done.
    destruct (decide (j < k)%nat) as [Hjk|Hjk].
    + destruct (Hch j b) as (xb & Hxb & Hb); [by rewrite lookup_middle_lt by lia|].
      rewrite lookup_middle_lt in Hxb by lia.
      rewrite before_middle_le in Hb by lia.
      exists xb. split; [done|].
      destruct (decide (j = k - 1)%nat) as [->|Hne].
      * assert (b = pa) as -> by congruence. rewrite lookup_insert_eq.
        assert (xb = xp) as -> by congruence.
        replace (S (k - 1)) with k by lia. by rewrite Hna.
      * assert (b ≠ pa).
        { intros ->. pose proof (NoDup_lookup _ _ _ _ Hnd' Hj Hpa). lia. }
        assert (b ≠ na).
        { intros ->. pose proof (NoDup_lookup _ _ _ _ Hnd' Hj Hna). lia. }
        rewrite !lookup_insert_ne by done. rewrite Hb.
        by rewrite (lookup_middle_lt _ _ _ (S j)) by lia.
    + destruct (Hch (S j) b) as (xb & Hxb & Hb); [by rewrite lookup_middle_ge by lia|].
      rewrite lookup_middle_ge in Hxb by lia.
      rewrite (lookup_middle_ge _ _ _ (S j)) in Hb by lia.
      exists xb. split; [done|].
      assert (b ≠ pa).
      { intros ->. pose proof (NoDup_lookup _ _ _ _ Hnd' Hj Hpa). lia. }
      rewrite lookup_insert_ne by done.
      destruct (decide (j = k)) as [->|Hne].
      * assert (b = na) as -> by congruence. rewrite lookup_insert_eq.
        assert (xb = xn) as -> by congruence.
        replace k with (S (k - 1)) at 2 by lia. simpl. by rewrite Hpa.
      * assert (b ≠ na).
        { intros ->. pose proof (NoDup_lookup _ _ _ _ Hnd' Hj Hna). lia. }
        rewrite lookup_insert_ne by done. rewrite Hb.
        by rewrite before_middle_gt by lia.
  - rewrite dom_delete_L, !dom_insert_L, Hdom, !list_to_set_app_L. simpl.
    apply list_elem_of_lookup_2 in Hpa, Hna.
    rewrite elem_of_app in Hpa, Hna, Hnotin. set_solver.
  - rewrite Hhd. destruct ls1; [done|done].
  - rewrite Htl. rewrite !last_app. simpl. by destruct ls2.
  - rewrite length_app. lia.
  - lia.
Qed.

(** [insert] at position [k] of the chain: [k = 0] is [begin()],
    [k = length ls] is [end()]. *)
Lemma list_insert_spec (k : nat) val l ls vs :
  is_list l ls vs → (k ≤ length ls)%nat → sz l + 1 < size_max →
  ∃ l', insert (ls !! k) val l = Ok (ls !! k, l')
    ∧ is_list l' (take k ls ++ fresh (dom (mem l)) :: drop k ls)
                 (take k vs ++ val :: drop k vs)
    ∧ sz l' = sz l + 1.
Proof.
  intros Hl Hk Hmax. pose proof (is_list_length _ _ _ Hl) as Hlen.
  destruct (decide (k = 0%nat)) as [->|Hk0].
  - destruct (list_push_front_spec val l ls vs Hl Hmax) as (l' & Hpush & Hl' & Hs').
    exists l'. unfold insert, begin_.
    rewrite decide_True by (by rewrite (is_list_head _ _ _ Hl)).
    rewrite Hpush. simpl. done.
  - destruct (decide (k = length ls)) as [->|Hkn].
    + destruct (list_push_back_spec val l ls vs Hl Hmax) as (l' & Hpush & Hl' & Hs').
      exists l'. unfold insert, begin_, end_.
      rewrite (lookup_ge_None_2 ls (length ls)) by lia.
      rewrite decide_False.
      2: { rewrite (is_list_head _ _ _ Hl). destruct ls; [done|done]. }
      rewrite decide_True by done. rewrite Hpush. simpl.
      rewrite take_ge, drop_ge by lia. rewrite <- Hlen.
      rewrite take_ge, drop_ge by lia. done.
    + destruct (lookup_lt_is_Some_2 ls k) as [a Ha]; [lia|].
      destruct (lookup_lt_is_Some_2 vs k) as [x Hx]; [lia|].
      rewrite Ha. rewrite (drop_S ls a k), (drop_S vs x k) by done.
      apply list_insert_middle; try done.
      * by rewrite (take_drop_middle ls k a), (take_drop_middle vs k x).
      * rewrite !length_take. lia.
      * intros Hnil. apply (f_equal length) in Hnil.
        rewrite length_take in Hnil. simpl in Hnil. lia.
Qed.

(** [erase] at position [k] of the chain, for the first node and for a
    node with two neighbours. *)
Lemma list_erase_spec (k : nat) l ls vs :
  is_list l ls vs → (k < length ls)%nat → (k = 0 ∨ S k < length ls)%nat →
  ∃ l', erase (ls !! k) l = Ok (ls !! k, l')
    ∧ is_list l' (delete k ls) (delete k vs)
    ∧ sz l' = sz l - 1.
Proof.
  intros Hl Hk Hpos. pose proof (is_list_length _ _ _ Hl) as Hlen.
  destruct (decide (k = 0%nat)) as [->|Hk0].
  - destruct ls as [|a ls]; [simpl in *; lia|].
    destruct vs as [|x vs]; [done|].
    destruct (list_pop_front_cons l a ls x vs Hl) as (l' & Hpop & Hl' & Hs').
    exists l'. unfold erase, begin_.
    rewrite decide_True by (by rewrite (is_list_head _ _ _ Hl)).
    rewrite Hpop. done.
  - destruct (lookup_lt_is_Some_2 ls k) as [a Ha]; [lia|].
    destruct (lookup_lt_is_Some_2 vs k) as [x Hx]; [lia|].
    rewrite Ha. rewrite !delete_take_drop.
    apply list_erase_middle with x.
    + by rewrite (take_drop_middle ls k a), (take_drop_middle vs k x).
    + rewrite !length_take. lia.
    + intros Hnil. apply (f_equal length) in Hnil.
      rewrite length_take in Hnil. simpl in Hnil. lia.
    + intros Hnil. apply (f_equal length) in Hnil.
      rewrite length_drop in Hnil. simpl in Hnil. lia.
Qed.

(** *** Traversals *)

Lemma forward_None (fuel : nat) h : forward fuel h None = Ok [].
Proof. by destruct fuel. Qed.

Lemma backward_None (fuel : nat) h : backward fuel h None = Ok [].
Proof. by destruct fuel. Qed.

Lemma forward_chain h ls vs :
  chain h ls vs →
  ∀ (k i fuel : nat), length ls = (i + k)%nat → (k ≤ fuel)%nat →
    forward fuel h (ls !! i) = Ok (drop i vs).
Proof.
  intros [Hlen Hch] k. induction k as [|k IH]; intros i fuel Hi Hfuel.
  - rewrite (lookup_ge_None_2 ls i) by lia. rewrite forward_None.
    by rewrite drop_ge by lia.
  - destruct (lookup_lt_is_Some_2 ls i) as [a Ha]; [lia|].
    destruct (Hch i a Ha) as (x & Hx & Hnode).
    destruct fuel as [|fuel]; [lia|]. rewrite Ha. simpl. rewrite Hnode. simpl.
    rewrite (IH (S i) fuel) by lia. simpl.
    by rewrite (drop_S vs x i).
Qed.

Lemma backward_chain h ls vs :
  chain h ls vs →
  ∀ (i fuel : nat), (i ≤ length ls)%nat → (i ≤ fuel)%nat →
    backward fuel h (before ls i) = Ok (reverse (take i vs)).
Proof.
  intros [Hlen Hch] i. induction i as [|i IH]; intros fuel Hi Hfuel.
  - simpl. by rewrite backward_None.
  - destruct (lookup_lt_is_Some_2 ls i) as [a Ha]; [lia|].
    destruct (Hch i a Ha) as (x & Hx & Hnode).
    destruct fuel as [|fuel]; [lia|]. simpl. rewrite Ha. simpl.
    rewrite Hnode. simpl. rewrite (IH fuel) by lia. simpl.
    rewrite (take_S_r vs i x) by done. by rewrite reverse_snoc.
Qed.

Lemma is_list_size_mem l ls vs : is_list l ls vs → base.size (mem l) = length ls.
Proof.
  intros Hl. rewrite <- size_dom, (is_list_dom _ _ _ Hl).
  rewrite size_list_to_set; [done|]. apply (is_list_nodup _ _ _ Hl).
Qed.

Lemma before_length ls : before ls (length ls) = last ls.
Proof. rewrite last_lookup. by destruct ls. Qed.

(** The two traversals of a list in its invariant. *)
Lemma is_list_to_list l ls vs :
  is_list l ls vs → to_list l = Ok vs ∧ to_list_rev l = Ok (reverse vs).
Proof.
  intros Hl. pose proof (is_list_size_mem _ _ _ Hl) as Hsize.
  pose proof (is_list_length _ _ _ Hl) as Hlen.
  unfold to_list, to_list_rev. rewrite Hsize. split.
  - rewrite (is_list_head _ _ _ Hl).
    by rewrite (forward_chain _ ls vs (is_list_chain _ _ _ Hl) (length ls) 0).
  - rewrite (is_list_tail _ _ _ Hl), <- before_length.
    rewrite (backward_chain _ ls vs (is_list_chain _ _ _ Hl)) by done.
    by rewrite take_ge by lia.
Qed.

(** The representation invariant gives the structural invariant of the
    specification. *)
Lemma is_list_invariant l ls vs : is_list l ls vs → invariant l.
Proof.
  intros Hl. pose proof (is_list_to_list _ _ _ Hl) as [Hfw Hbw].
  pose proof (is_list_length _ _ _ Hl) as Hlen.
  destruct Hl as [Hnd [_ Hch] Hdom Hhd Htl Hsz Hmax]. split_and!.
  - rewrite Hhd, Htl, Hsz. destruct ls; simpl; [done|].
    split; [lia|]. by intros [[=] _].
  - intros Hne. destruct (length ls) as [|n] eqn:Hn; [lia|].
    destruct (lookup_lt_is_Some_2 ls 0) as [a Ha]; [lia|].
    destruct (lookup_lt_is_Some_2 ls n) as [b Hb]; [lia|].
    destruct (Hch 0%nat a Ha) as (x & _ & Hnode).
    destruct (Hch n b Hb) as (y & _ & Hnode').
    eexists _, _. rewrite Hhd, Htl, last_lookup, Hn, Ha. simpl.
    rewrite Hb, Hnode. simpl. rewrite Hnode'. split_and!; try done. simpl.
    apply lookup_ge_None_2. lia.
  - exists vs. split_and!; [done..|]. lia.
Qed.

(** *** Resizing *)

Lemma list_resize_grow n val l ls vs :
  is_list l ls vs → n < size_max →
  ∃ l1 ls1, while (Z.to_nat n) (λ l, sz l <? n) (push_back val) l = Ok l1
    ∧ is_list l1 ls1 (vs ++ replicate (Z.to_nat (n - sz l)) val)
    ∧ sz l1 = Z.max n (sz l).
Proof.
  intros Hl Hn. pose proof (is_list_sz _ _ _ Hl) as Hsz.
  destruct (while_total
    (λ s, sz l ≤ sz s ≤ Z.max n (sz l)
          ∧ ∃ ls', is_list s ls' (vs ++ replicate (Z.to_nat (sz s - sz l)) val))
    (λ s, Z.to_nat (n - sz s)) (λ l, sz l <? n) (push_back val))
    with (fuel := Z.to_nat n) (s := l)
    as (l1 & Hl1 & (Hs1 & ls1 & Hrep1) & Hexit).
  - intros s (Hs & ls' & Hrep) Hcond. apply Z.ltb_lt in Hcond.
    destruct (list_push_back_spec val s _ _ Hrep) as (s' & -> & Hrep' & Hs'); [lia|].
    exists s'. split_and!; try done; try lia.
    eexists. rewrite Hs'.
    replace (Z.to_nat (sz s + 1 - sz l)) with (S (Z.to_nat (sz s - sz l)))
      by lia.
    rewrite replicate_S_end, app_assoc. done.
  - split; [lia|]. exists ls. rewrite Z.sub_diag. simpl. by rewrite app_nil_r.
  - lia.
  - apply Z.ltb_ge in Hexit. exists l1, ls1. split_and!; [done| |lia].
    replace (Z.to_nat (n - sz l)) with (Z.to_nat (sz l1 - sz l)) by lia. done.
Qed.

Lemma list_resize_shrink n l ls vs :
  is_list l ls vs → 0 ≤ n →
  ∃ l2 ls2, while (Z.to_nat (sz l)) (λ l, n <? sz l) pop_back l = Ok l2
    ∧ is_list l2 ls2 (take (Z.to_nat n) vs)
    ∧ sz l2 = Z.min n (sz l).
Proof.
  intros Hl Hn. pose proof (is_list_sz _ _ _ Hl) as Hsz.
  pose proof (is_list_length _ _ _ Hl) as Hlen.
  destruct (while_total
    (λ s, Z.min n (sz l) ≤ sz s ≤ sz l
          ∧ ∃ ls', is_list s ls' (take (Z.to_nat (sz s)) vs))
    (λ s, Z.to_nat (sz s - n)) (λ l, n <? sz l) pop_back)
    with (fuel := Z.to_nat (sz l)) (s := l)
    as (l2 & Hl2 & (Hs2 & ls2 & Hrep2) & Hexit).
  - intros s (Hs & ls' & Hrep) Hcond. apply Z.ltb_lt in Hcond.
    pose proof (is_list_sz _ _ _ Hrep) as Hszs.
    pose proof (is_list_length _ _ _ Hrep) as Hlens.
    destruct (list_pop_back_spec s _ _ Hrep) as (s' & -> & Hrep' & Hs'); [lia|].
    exists s'. split_and!; try done; try lia.
    eexists. rewrite take_take in Hrep'.
    replace (Z.to_nat (sz s')) with
      ((length (take (Z.to_nat (sz s)) vs) - 1) `min` Z.to_nat (sz s))%nat
      by (rewrite length_take; lia).
    done.
  - split; [lia|]. exists ls. by rewrite take_ge by lia.
  - lia.
  - apply Z.ltb_ge in Hexit. exists l2, ls2. split_and!; [done| |lia].
    destruct (decide (n ≤ sz l)) as [Hle|Hgt].
    + replace (Z.to_nat n) with (Z.to_nat (sz l2)) by lia. done.
    + rewrite take_ge by lia. by rewrite take_ge in Hrep2 by lia.
Qed.

(** [resize(n, val)] returns with size [n]: the first [n] elements are
    kept and every added node holds [val]. *)
Lemma list_resize_spec n val l ls vs :
  is_list l ls vs → 0 ≤ n < size_max →
  ∃ l' ls', resize n val l = Ok l'
    ∧ is_list l' ls' (take (Z.to_nat n) vs
                      ++ replicate (Z.to_nat (n - sz l)) val)
    ∧ sz l' = n.
Proof.
  intros Hl Hn. unfold resize.
  pose proof (is_list_sz _ _ _ Hl) as Hsz.
  pose proof (is_list_length _ _ _ Hl) as Hlen.
  destruct (list_resize_grow n val l ls vs Hl) as (l1 & ls1 & -> & Hl1 & Hs1); [lia|].
  simpl.
  destruct (list_resize_shrink n l1 _ _ Hl1) as (l2 & ls2 & -> & Hl2 & Hs2); [lia|].
  exists l2, ls2. split_and!; [done| |lia].
  destruct (decide (n ≤ sz l)) as [Hle|Hgt].
  - replace (Z.to_nat (n - sz l)) with 0%nat in * by lia. simpl in *.
    by rewrite app_nil_r in *.
  - rewrite take_ge in Hl2 by (rewrite length_app, length_replicate; lia).
    by rewrite take_ge by lia.
Qed.

(** *** Construction and copy *)

Lemma is_list_nil :
  is_list {| mem := ∅; head := None; tail := None; sz := 0 |} [] ([] : list T).
Proof.
  split; simpl; try done. apply NoDup_nil_2.
Qed.

(** [list(n, val)] builds [n] nodes holding [val]. *)
Lemma list_create_spec n val :
  n < size_max →
  ∃ l ls, create n val = Ok l ∧ is_list l ls (replicate (Z.to_nat n) val)
          ∧ sz l = Z.max n 0.
Proof.
  intros Hn. unfold create.
  destruct (list_resize_grow n val _ [] [] is_list_nil Hn)
    as (l & ls & Hl & Hrep & Hsz).
  exists l, ls. simpl in *. rewrite Z.sub_0_r in Hrep. done.
Qed.

(** The copy constructor builds a list with the same values. *)
Lemma list_copy_spec v ls vs :
  is_list v ls vs →
  ∃ l ls', copy v = Ok l ∧ is_list l ls' vs ∧ sz l = sz v.
Proof.
  intros Hv. pose proof (is_list_length _ _ _ Hv) as Hlen.
  pose proof (is_list_sz _ _ _ Hv) as Hsz.
  pose proof (is_list_size_t _ _ _ Hv) as Hmax.
  pose proof (is_list_size_mem _ _ _ Hv) as Hsize.
  destruct (is_list_chain _ _ _ Hv) as [_ Hch].
  unfold copy.
  destruct (while_total
    (λ st : option positive * list_ T,
       ∃ (i : nat) ls', (i ≤ length ls)%nat ∧ st.1 = ls !! i
         ∧ is_list st.2 ls' (take i vs) ∧ sz st.2 = Z.of_nat i)
    (λ st : option positive * list_ T,
       match st.1 with
       | Some _ => S (length ls - Z.to_nat (sz st.2))
       | None => 0%nat
       end)
    (λ st, bool_decide (st.1 ≠ None)) (append_step (λ _, mem v)))
    with (fuel := S (base.size (mem v)))
         (s := (head v, List (T:=T) ∅ None None 0))
    as ([it l] & Hloop & (i & ls' & Hi & Hit & Hl & Hs) & Hexit).
  - intros [it l] (i & ls' & Hi & Hit & Hl & Hs) Hcond. simpl in *.
    apply bool_decide_eq_true in Hcond.
    destruct it as [a|]; [|done]. symmetry in Hit.
    pose proof (lookup_lt_Some _ _ _ Hit) as Hlt.
    destruct (Hch i a Hit) as (x & Hx & Hnode).
    unfold append_step. simpl. rewrite Hnode. simpl.
    destruct (list_push_back_spec x l _ _ Hl) as (l' & -> & Hl' & Hs'); [lia|].
    simpl. eexists. split; [done|]. simpl. split.
    + exists (S i), (ls' ++ [fresh (dom (mem l))]).
      split_and!; [lia|done| |lia].
      by rewrite (take_S_r vs i x).
    + rewrite Hs', Hs. destruct (ls !! S i); lia.
  - exists 0%nat, []. simpl. split_and!; [lia| |apply is_list_nil|done].
    apply (is_list_head _ _ _ Hv).
  - simpl. rewrite Hsize. destruct (head v); lia.
  - simpl in Hit, Hl, Hs, Hexit. apply bool_decide_eq_false in Hexit.
    assert (it = None) as -> by (by destruct it; [exfalso; apply Hexit|]).
    symmetry in Hit. apply lookup_ge_None_1 in Hit.
    rewrite Hloop. simpl. exists l, ls'. split_and!; [done| |lia].
    by rewrite take_ge in Hl by lia.
Qed.

(** *** The calls that keep the invariant *)

(** On a list in its invariant, with room for one more element in
    [size_t], these calls return and leave a list that satisfies the
    structural invariant: [push_front], [push_back], [pop_front],
    [pop_back], [resize], [insert] at every position ([begin()] and [end()]
    included), [erase] at the first node and at a node with two
    neighbours, and the copy constructor. *)
Lemma list_calls_keep_invariant l ls vs :
  is_list l ls vs → sz l + 1 < size_max →
  (∀ val, ∃ l', push_front val l = Ok l' ∧ invariant l')
  ∧ (∀ val, ∃ l', push_back val l = Ok l' ∧ invariant l')
  ∧ (∃ l', pop_front l = Ok l' ∧ invariant l')
  ∧ (∃ l', pop_back l = Ok l' ∧ invariant l')
  ∧ (∀ n val, 0 ≤ n < size_max → ∃ l', resize n val l = Ok l' ∧ invariant l')
  ∧ (∀ (k : nat) val, (k ≤ length ls)%nat →
       ∃ l', insert (ls !! k) val l = Ok (ls !! k, l') ∧ invariant l')
  ∧ (∀ k : nat, (k < length ls)%nat → (k = 0 ∨ S k < length ls)%nat →
       ∃ l', erase (ls !! k) l = Ok (ls !! k, l') ∧ invariant l')
  ∧ (∃ l', copy l = Ok l' ∧ invariant l').
Proof.
  intros Hl Hmax. pose proof (is_list_length _ _ _ Hl) as Hlen.
  split_and!.
  - intros val.
    destruct (list_push_front_spec val l ls vs Hl Hmax) as (l' & ? & Hl' & _).
    exists l'. eauto using is_list_invariant.
  - intros val.
    destruct (list_push_back_spec val l ls vs Hl Hmax) as (l' & ? & Hl' & _).
    exists l'. eauto using is_list_invariant.
  - destruct ls as [|a ls]; destruct vs as [|x vs]; try done.
    + exists l. split; [by apply list_pop_front_nil|].
      by eapply is_list_invariant.
    + destruct (list_pop_front_cons l a ls x vs Hl) as (l' & ? & Hl' & _).
      exists l'. eauto using is_list_invariant.
  - destruct (decide (sz l = 0)) as [H0|Hne].
    + exists l. unfold pop_back, empty. rewrite H0. simpl.
      split; [done|]. by eapply is_list_invariant.
    + pose proof (is_list_sz _ _ _ Hl).
      destruct (list_pop_back_spec l ls vs Hl) as (l' & ? & Hl' & _); [lia|].
      exists l'. eauto using is_list_invariant.
  - intros n val Hn.
    destruct (list_resize_spec n val l ls vs Hl Hn) as (l' & ls' & ? & Hl' & _).
    exists l'. eauto using is_list_invariant.
  - intros k val Hk.
    destruct (list_insert_spec k val l ls vs Hl Hk Hmax) as (l' & ? & Hl' & _).
    exists l'. eauto using is_list_invariant.
  - intros k Hk Hpos.
    destruct (list_erase_spec k l ls vs Hl Hk Hpos) as (l' & ? & Hl' & _).
    exists l'. eauto using is_list_invariant.
  - destruct (list_copy_spec l ls vs Hl) as (l' & ls' & ? & Hl' & _).
    exists l'. eauto using is_list_invariant.
Qed.

(** *** The calls that are not defined *)

(** [clear()] on a non-empty list: [pop_front] frees the node the
    iterator refers to, and [++it] reads this node. *)
Lemma list_clear_undefined l a ls x vs :
  is_list l (a :: ls) (x :: vs) → clear l = Undef.
Proof.
  intros Hl. pose proof (is_list_head _ _ _ Hl) as Hhd.
  pose proof (is_list_nodup _ _ _ Hl) as [Ha _]%NoDup_cons.
  destruct (list_pop_front_cons l a ls x vs Hl) as (l' & Hpop & Hl' & _).
  assert (mem l' !! a = None) as Hfreed.
  { apply not_elem_of_dom. rewrite (is_list_dom _ _ _ Hl').
    by rewrite elem_of_list_to_set. }
  unfold clear. rewrite Hhd. simpl. rewrite Hpop. simpl. by rewrite Hfreed.
Qed.

(** The copy assignment starts with [clear()]. *)
Lemma list_assign_undefined rhs l a ls x vs :
  is_list l (a :: ls) (x :: vs) → assign rhs l = Undef.
Proof.
  intros Hl. unfold assign. by rewrite (list_clear_undefined l a ls x vs).
Qed.

(** [erase] at the last of two or more nodes: the node is neither
    [begin()] nor [end()], and [i.n->next] is null. *)
Lemma list_erase_last_undefined l ls a vs :
  is_list l (ls ++ [a]) vs → ls ≠ [] → erase (Some a) l = Undef.
Proof.
  intros [Hnd [Hlen Hch] Hdom Hhd Htl Hsz Hmax] Hne.
  assert (0 < length ls)%nat as Hk by (destruct ls; [done|simpl; lia]).
  assert ((ls ++ [a]) !! length ls = Some a) as Ha.
  { by rewrite lookup_app_r, Nat.sub_diag by lia. }
  destruct (Hch _ a Ha) as (x & _ & Hnode).
  rewrite (lookup_ge_None_2 _ (S (length ls))) in Hnode
    by (rewrite length_app; simpl; lia).
  unfold erase, begin_, end_. rewrite decide_False.
  2: { rewrite Hhd. intros Heq. symmetry in Heq.
       pose proof (NoDup_lookup _ _ _ _ Hnd Heq Ha). lia. }
  rewrite decide_False by done. simpl. by rewrite Hnode.
Qed.

(** *** Erasing at [end()] *)

(** C10: on a non-empty list, [erase(end())] returns: it is the call
    [pop_back()], which removes the last element and decrements the
    size; the list stays in its invariant. *)
Theorem erase_end_pops_back l ls vs :
  is_list l ls vs → size l ≠ 0 →
  ∃ l', erase (end_ l) l = Ok (end_ l, l')
    ∧ pop_back l = Ok l'
    ∧ size l' = size l - 1
    ∧ to_list l = Ok vs
    ∧ to_list l' = Ok (take (length vs - 1) vs)
    ∧ invariant l'.
Proof.
  unfold size, end_. intros Hl Hne.
  pose proof (is_list_sz _ _ _ Hl) as Hsz.
  destruct (list_pop_back_spec l ls vs Hl) as (l' & Hpop & Hl' & Hs'); [lia|].
  exists l'. unfold erase, begin_, end_.
  rewrite decide_False.
  2: { rewrite (is_list_head _ _ _ Hl). destruct ls; [simpl in *; lia|done]. }
  rewrite decide_True by done. rewrite Hpop. simpl.
  split_and!; try done.
  - by apply (is_list_to_list _ _ _ Hl).
  - by apply (is_list_to_list _ _ _ Hl').
  - by eapply is_list_invariant.
Qed.

End list_proofs.

(** *** Concrete lists of [Z] *)

Lemma l123_built :
  (l ← create 0 0; l ← push_back 10 l; l ← push_back 20 l; push_back 30 l)
  = Ok l123.
Proof. vm_compute. reflexivity. Qed.

Lemma l123_is_list : is_list l123 [1; 2; 3]%positive [10; 20; 30].
Proof.
  split; try done.
  - repeat (apply NoDup_cons; split; [set_solver|]). apply NoDup_nil_2.
  - split; [done|]. intros [|[|[|i]]] a; intros [= <-]; eexists; by split.
Qed.

(** C8: in the list [10, 20, 30], erasing the node of 20 gives
    [10, 30] of size 2. The node of 30 is neither the first node nor
    [end()], and [erase] on it reads [i.n->next->prev] with [i.n->next]
    null: the behaviour is undefined, and [tail] would not be updated. *)
Theorem erase_last_node_undefined :
  is_list l123 [1; 2; 3]%positive [10; 20; 30]
  ∧ erase (Some 2%positive) l123 = Ok (Some 2%positive, l13)
  ∧ to_list l13 = Ok [10; 30] ∧ size l13 = 2
  ∧ Some 3%positive ≠ begin_ l123 ∧ Some 3%positive ≠ end_ l123
  ∧ deref (mem l123) (Some 3%positive) = Ok (Node 30 (Some 2%positive) None)
  ∧ erase (Some 3%positive) l123 = Undef.
Proof.
  split; [apply l123_is_list|].
  split_and!; try done; vm_compute; reflexivity.
Qed.

(** C2: the list [10, 20, 30] is in its invariant. [clear()] frees the
    node an iterator refers to ([pop_front]) and then increments this
    iterator, which reads the freed node; the copy assignment starts with
    [clear()]; [erase] at the last node dereferences a null pointer. None
    of the three calls has a defined result on this list. *)
Theorem clear_reads_freed_node :
  invariant l123
  ∧ (∃ l', pop_front l123 = Ok l'
           ∧ deref (mem l') (head l123) = Undef)
  ∧ clear l123 = Undef
  ∧ assign (Some l13) l123 = Undef
  ∧ assign None l123 = Undef
  ∧ erase (tail l123) l123 = Undef.
Proof.
  split; [apply (is_list_invariant _ _ _ l123_is_list)|].
  split; [eexists; split; vm_compute; reflexivity|].
  split_and!; vm_compute; reflexivity.
Qed.

Lemma erase_end_pops_back_witness :
  ∃ l', erase (end_ l123) l123 = Ok (end_ l123, l')
    ∧ pop_back l123 = Ok l'
    ∧ size l' = size l123 - 1
    ∧ to_list l123 = Ok [10; 20; 30]
    ∧ to_list l' = Ok (take (length [10; 20; 30] - 1) [10; 20; 30])
    ∧ invariant l'.
Proof.
  apply (erase_end_pops_back l123 [1; 2; 3]%positive [10; 20; 30]);
    [apply l123_is_list|discriminate].
Defined.

End list_proofs.

(** ** Both containers *)

(** C9: [resize(n)] followed by [resize(s)], where [s] is the size
    before, returns with size [s], for the vector and for the list. After
    the first call the first [min n s] elements are the old ones and the
    added ones are [T()]; after the second call the elements beyond the
    first [min n s] are [T()]: what a shrinking [resize] removed is not
    restored. A vector can hold [n] elements only if its doubled capacity
    is a [size_t], hence [2 * n <= size_max]. The argument of
    [resize(n)] is the temporary [T()], an object outside the buffer. *)
Theorem resize_round_trip {T : Type} `{DefaultConstructible T} (n : Z) :
  0 ≤ n → 2 * n ≤ size_max →
  (∀ v : vector.vector T, vector.wf v →
     ∃ v1 v2,
       vector.resize n (vector.Obj T_default) v = Ok v1
       ∧ vector.size v1 = n
       ∧ vector.elements v1
         = take (Z.to_nat n) (vector.elements v)
           ++ replicate (Z.to_nat (n - vector.size v)) T_default
       ∧ vector.resize (vector.size v) (vector.Obj T_default) v1 = Ok v2
       ∧ vector.size v2 = vector.size v
       ∧ vector.elements v2
         = take (Z.to_nat n) (vector.elements v)
           ++ replicate (Z.to_nat (vector.size v - n)) T_default)
  ∧ (∀ (l : list_.list_ T) ls vs, list_.is_list l ls vs →
     ∃ l1 l2,
       list_.resize n T_default l = Ok l1
       ∧ list_.size l1 = n
       ∧ list_.to_list l1
         = Ok (take (Z.to_nat n) vs
               ++ replicate (Z.to_nat (n - list_.size l)) T_default)
       ∧ list_.resize (list_.size l) T_default l1 = Ok l2
       ∧ list_.size l2 = list_.size l
       ∧ list_.to_list l2
         = Ok (take (Z.to_nat n) vs
               ++ replicate (Z.to_nat (list_.size l - n)) T_default)).
Proof.
  intros Hn Hn2. split.
  - intros v Hwf. unfold vector.size. pose proof Hwf as (Hl & Hs & Hcap).
    destruct (vector_proofs.resize_spec n T_default v Hwf Hn)
      as (v1 & Hv1 & Hwf1 & Hc1 & Hs1 & He1); [by right|].
    destruct (vector_proofs.resize_spec (vector.sz v) T_default v1 Hwf1)
      as (v2 & Hv2 & Hwf2 & Hc2 & Hs2 & He2); [lia|left; lia|].
    exists v1, v2. split_and!; try done.
    rewrite He2, He1, Hs1. apply resize_twice_elements; [|lia..].
    by apply vector_proofs.elements_length.
  - intros l ls vs Hl. unfold list_.size.
    pose proof (list_.is_list_sz _ _ _ Hl) as Hsz.
    pose proof (list_.is_list_size_t _ _ _ Hl) as Hmax.
    pose proof (list_proofs.is_list_length _ _ _ Hl) as Hlen.
    destruct (list_proofs.list_resize_spec n T_default l ls vs Hl)
      as (l1 & ls1 & Hr1 & Hl1 & Hs1); [unfold size_max in *; lia|].
    destruct (list_proofs.list_resize_spec (list_.sz l) T_default l1 _ _ Hl1)
      as (l2 & ls2 & Hr2 & Hl2 & Hs2); [lia|].
    exists l1, l2. split_and!; try done.
    + by apply (list_proofs.is_list_to_list _ _ _ Hl1).
    + rewrite Hs1 in Hl2. rewrite resize_twice_elements in Hl2 by lia.
      by apply (list_proofs.is_list_to_list _ _ _ Hl2).
Qed.

Lemma resize_round_trip_witness :
  let v := {| vector.t := [1; 2; 3; 0; 0; 0; 0; 0; 0; 0];
              vector.cap := 10; vector.sz := 3 |} in
  (∃ v1 v2,
     vector.resize 5 (vector.Obj 0) v = Ok v1
     ∧ vector.size v1 = 5
     ∧ vector.elements v1 = [1; 2; 3; 0; 0]
     ∧ vector.resize 3 (vector.Obj 0) v1 = Ok v2
     ∧ vector.size v2 = 3
     ∧ vector.elements v2 = [1; 2; 3])
  ∧ (∃ l1 l2,
       list_.resize 5 0 list_.l123 = Ok l1
       ∧ list_.size l1 = 5
       ∧ list_.to_list l1 = Ok [10; 20; 30; 0; 0]
       ∧ list_.resize 3 0 l1 = Ok l2
       ∧ list_.size l2 = 3
       ∧ list_.to_list l2 = Ok [10; 20; 30]).
Proof.
  cbv zeta.
  destruct (@resize_round_trip Z _ 5) as [Hvec Hlist];
    [lia|unfold size_max; lia|].
  split.
  - apply (Hvec {| vector.t := [1; 2; 3; 0; 0; 0; 0; 0; 0; 0];
                   vector.cap := 10; vector.sz := 3 |}).
    vector_proofs.concrete_wf.
  - apply (Hlist list_.l123 [1; 2; 3]%positive [10; 20; 30]).
    apply list_proofs.l123_is_list.
Defined.

(** ** vector.h: construction, copies and reallocation *)

Module vector_more.
Import vector vector_proofs.
Section vector_more.
Context {T : Type} `{DefaultConstructible T}.
Implicit Types (v w : vector T) (b : list T) (x val : T) (i n c : Z).

(** The fill loop of the constructor: slots [i .. i+k-1] receive [x]. *)
Lemma fill_slots_Ok (k i : nat) x (dst : list T) :
  (i + k ≤ length dst)%nat →
  ∃ dst', fill_slots k (Z.of_nat i) x dst = Ok dst'
    ∧ length dst' = length dst
    ∧ ∀ j : nat, dst' !! j =
        if decide (i ≤ j < i + k)%nat then Some x else dst !! j.
Proof.
  revert i dst. induction k as [|k IH]; intros i dst Hd; simpl.
  - exists dst. split_and!; [done..|]. intros j. case_decide; [lia|done].
  - rewrite store_Ok by lia. simpl. rewrite Nat2Z.id.
    replace (Z.of_nat i + 1) with (Z.of_nat (S i)) by lia.
    destruct (IH (S i) (<[i:=x]> dst)) as (dst' & -> & Hlen & Hget);
      [rewrite length_insert; lia|].
    exists dst'. split_and!; [done|by rewrite Hlen, length_insert|].
    intros j. rewrite Hget.
    destruct (decide (j = i)) as [->|Hne].
    + rewrite decide_False by lia. rewrite decide_True by lia.
      by rewrite list_lookup_insert_eq by lia.
    + rewrite list_lookup_insert_ne by done.
      repeat case_decide; first [done|lia].
Qed.

(** X1: the constructor [vector(n, val)] returns a vector of size [n] and
    capacity [max(10, 2n)] whose elements are all [val]. *)
Theorem create_fills n val :
  0 ≤ n → 2 * n < size_max →
  ∃ v, create n val = Ok v ∧ wf v
    ∧ size v = n ∧ capacity v = Z.max 10 (2 * n)
    ∧ elements v = replicate (Z.to_nat n) val.
Proof.
  intros Hn Hmax. unfold create. rewrite wrap_small by lia.
  pose proof (length_new_array (Z.max 10 (2 * n))) as Hlen.
  destruct (fill_slots_Ok (Z.to_nat n) 0 val (new_array (Z.max 10 (2 * n))))
    as (b & Hb & Hlb & Hget); [lia|].
  change (Z.of_nat 0) with 0 in Hb. rewrite Hb. simpl.
  eexists. split; [done|]. unfold wf, size, capacity, elements. simpl.
  split_and!; try done; try (unfold size_max in *; lia).
  apply list_eq. intros j.
  destruct (decide (j < Z.to_nat n)%nat) as [Hj|Hj].
  - rewrite lookup_take_lt by lia. rewrite Hget. rewrite decide_True by lia.
    by rewrite lookup_replicate_2 by lia.
  - rewrite lookup_take_ge by lia. symmetry.
    apply lookup_replicate_None. lia.
Qed.

(** X2: the copy constructor returns a vector equal to its argument:
    same size, same capacity and the same value in every slot. *)
Theorem copy_equal v : wf v → copy v = Ok v.
Proof.
  intros (Hl & Hs & Hcap). unfold copy.
  pose proof (length_new_array (cap v)) as Hlen.
  destruct (copy_slots_Ok (Z.to_nat (cap v)) 0 (t v) (new_array (cap v)))
    as (b & Hb & Hlb & Hget); [lia..|].
  change (Z.of_nat 0) with 0 in Hb. rewrite Hb. simpl.
  assert (b = t v) as ->; [|by destruct v].
  apply list_eq. intros j. rewrite Hget. case_decide; [done|].
  rewrite !lookup_ge_None_2; [done|lia..].
Qed.

(** X3: the copy assignment from another vector [w] returns a vector
    with the size, the capacity and the elements of [w], whatever the
    assigned vector held. Only the [size] live slots are copied: a slot
    beyond the size holds what [new T[cap]] left in it, and not the slot
    of [w] as after the copy constructor. *)
Theorem assign_copies w v :
  wf w →
  ∃ v', assign (Some w) v = Ok v' ∧ wf v'
    ∧ size v' = size w ∧ capacity v' = capacity w
    ∧ elements v' = elements w
    ∧ ∀ j : nat, sz w ≤ Z.of_nat j < cap w → t v' !! j = Some (T_new j).
Proof.
  intros (Hl & Hs & Hcap). unfold assign.
  pose proof (length_new_array (cap w)) as Hlen.
  destruct (copy_slots_Ok (Z.to_nat (sz w)) 0 (t w) (new_array (cap w)))
    as (b & Hb & Hlb & Hget); [lia..|].
  change (Z.of_nat 0) with 0 in Hb. rewrite Hb. simpl.
  eexists. split; [done|]. unfold wf, size, capacity, elements. simpl.
  split_and!; try done; try lia.
  - apply list_eq. intros j.
    destruct (decide (j < Z.to_nat (sz w))%nat) as [Hj|Hj].
    + rewrite !lookup_take_lt by lia. rewrite Hget. by rewrite decide_True by lia.
    + by rewrite !lookup_take_ge by lia.
  - intros j Hj. rewrite Hget. rewrite decide_False by lia.
    apply lookup_new_array. lia.
Qed.

(** X4: [reserve(c)] keeps the size and the elements; the capacity
    becomes [c] when [c] is larger and stays otherwise. *)
Theorem reserve_keeps_elements c v :
  wf v → 0 ≤ c < size_max →
  ∃ v', reserve c v = Ok v' ∧ wf v'
    ∧ capacity v' = Z.max c (capacity v)
    ∧ size v' = size v ∧ elements v' = elements v.
Proof.
  intros Hwf Hc. pose proof Hwf as (Hl & Hs & Hcap). unfold size, capacity.
  destruct (decide (cap v < c)) as [Hlt|Hge].
  - destruct (reserve_grow c v Hwf Hlt) as (v' & -> & Hc' & Hs' & Hl' & Hget).
    exists v'. split_and!; try done; try lia.
    + unfold wf. lia.
    + apply list_eq. intros j. unfold elements. rewrite Hs'.
      destruct (decide (j < Z.to_nat (sz v))%nat) as [Hj|Hj].
      * rewrite !lookup_take_lt by lia. by apply Hget.
      * by rewrite !lookup_take_ge by lia.
  - exists v. rewrite reserve_no_grow by lia. split_and!; try done. lia.
Qed.

(** *** Appending and removing at the back *)

(** X5: [push_back] and [push_back_incremental] append the value of an
    argument outside the buffer: the elements afterwards are the elements
    before followed by [val], and [back()] returns [val]. When the
    argument is an element [x] of the vector itself, the call is the one
    with the value [x] as long as there is room; on a full vector it has
    no defined result, since the buffer is freed before the argument is
    read. *)
Theorem vector_push_back_appends val v :
  wf v → (size v = capacity v → 2 * capacity v < size_max) →
  (∃ v1 v2, push_back (Obj val) v = Ok v1
     ∧ push_back_incremental (Obj val) v = Ok v2
     ∧ elements v1 = elements v ++ [val] ∧ elements v2 = elements v ++ [val]
     ∧ back v1 = Ok val ∧ back v2 = Ok val)
  ∧ ∀ (j : nat) x, elements v !! j = Some x →
      if decide (size v = capacity v)
      then push_back (Slot (Z.of_nat j)) v = Undef
           ∧ push_back_incremental (Slot (Z.of_nat j)) v = Undef
      else push_back (Slot (Z.of_nat j)) v = push_back (Obj x) v
           ∧ push_back_incremental (Slot (Z.of_nat j)) v
             = push_back_incremental (Obj x) v.
Proof.
  unfold size, capacity. intros Hwf Hc. pose proof Hwf as (Hl & Hs & Hcap).
  split.
  - destruct (push_back_spec val v Hwf Hc)
      as (v1 & Hv1 & Hwf1 & Hs1 & _ & Hx1 & Hg1).
    destruct (push_back_incremental_spec val v Hwf)
      as (v2 & Hv2 & Hwf2 & Hs2 & _ & Hx2 & Hg2); [intros Hfull; lia|].
    exists v1, v2. split_and!; try done.
    + by apply (push_back_elements val v v1).
    + by apply (push_back_elements val v v2).
    + unfold back. rewrite Hs1. replace (sz v + 1 - 1) with (sz v) by lia.
      rewrite wrap_small by lia. by apply load_Ok; [lia|].
    + unfold back. rewrite Hs2. replace (sz v + 1 - 1) with (sz v) by lia.
      rewrite wrap_small by lia. by apply load_Ok; [lia|].
  - intros j x Hx. case_decide as Hfull.
    + split; by apply push_full_slot.
    + apply lookup_take_Some in Hx as [Hx _].
      apply push_back_slot; [done|lia|by rewrite Nat2Z.id].
Qed.

(** [pop_back] on a non-empty vector, slot by slot. *)
Lemma pop_back_slots v :
  wf v → 0 < sz v →
  pop_back v = Ok {| t := <[Z.to_nat (sz v - 1) := T_default]> (t v);
                     cap := cap v; sz := sz v - 1 |}.
Proof.
  intros (Hl & Hs & Hcap) Hpos. unfold pop_back, empty.
  rewrite (proj2 (Z.eqb_neq _ _)) by lia. simpl.
  rewrite wrap_small by lia. by rewrite store_Ok by lia.
Qed.

(** X6: [pop_back] on an empty vector changes nothing. On a non-empty
    vector it removes the last element, writes [T()] into its slot and
    keeps the capacity. *)
Theorem pop_back_removes_last v :
  wf v →
  (size v = 0 → pop_back v = Ok v)
  ∧ (0 < size v →
     ∃ v', pop_back v = Ok v' ∧ capacity v' = capacity v
       ∧ elements v' = take (Z.to_nat (size v - 1)) (elements v)
       ∧ t v' !! Z.to_nat (size v - 1) = Some T_default).
Proof.
  unfold size, capacity. intros Hwf. pose proof Hwf as (Hl & Hs & Hcap). split.
  - intros H0. unfold pop_back, empty. by rewrite H0.
  - intros Hpos. rewrite (pop_back_slots v Hwf Hpos). eexists.
    split_and!; try done; simpl.
    + unfold elements. simpl. rewrite take_insert_ge by lia.
      rewrite take_take. f_equal. lia.
    + apply list_lookup_insert_eq. lia.
Qed.

(** X7: [push_back(val)], for an argument outside the buffer, followed
    by [pop_back()] gives back the size and the elements; the capacity is
    the one [push_back] left, and the slot that held [val] holds [T()]. *)
Theorem push_back_pop_back val v :
  wf v → (size v = capacity v → 2 * capacity v < size_max) →
  ∃ v1 v2, push_back (Obj val) v = Ok v1 ∧ pop_back v1 = Ok v2
    ∧ size v2 = size v ∧ elements v2 = elements v
    ∧ capacity v2 = capacity v1
    ∧ t v2 !! Z.to_nat (size v) = Some T_default.
Proof.
  unfold size, capacity. intros Hwf Hc. pose proof Hwf as (Hl & Hs & Hcap).
  destruct (push_back_spec val v Hwf Hc) as (v1 & Hv1 & Hwf1 & Hs1 & _ & Hx1 & Hg1).
  pose proof Hwf1 as (Hl1 & Hsz1 & Hcap1).
  exists v1. eexists. split; [done|].
  rewrite (pop_back_slots v1 Hwf1) by lia. split; [done|]. simpl.
  rewrite Hs1. replace (sz v + 1 - 1) with (sz v) by lia.
  split_and!; try done.
  - unfold elements. simpl. rewrite take_insert_ge by lia.
    apply list_eq. intros j.
    destruct (decide (j < Z.to_nat (sz v))%nat) as [Hj|Hj].
    + rewrite !lookup_take_lt by lia. by apply Hg1.
    + by rewrite !lookup_take_ge by lia.
  - apply list_lookup_insert_eq. lia.
Qed.

(** X8: pushing the values [xs] one after the other, each passed in an
    object outside the buffer, appends them in this order, also across
    reallocations. The capacity afterwards is the capacity before, or at
    most twice the size minus one: doubling never allocates more than
    that. *)
Theorem push_back_sequence (xs : list T) : ∀ v,
  wf v → 2 * (size v + Z.of_nat (length xs)) < size_max →
  ∃ v', run (Push <$> xs) v = Ok v' ∧ wf v'
    ∧ size v' = size v + Z.of_nat (length xs)
    ∧ elements v' = elements v ++ xs
    ∧ (capacity v' = capacity v ∨ capacity v' ≤ 2 * (size v' - 1)).
Proof.
  unfold size, capacity. induction xs as [|x xs IH]; intros v Hwf Hbound.
  - exists v. simpl. rewrite app_nil_r. split_and!; try done; [lia|by left].
  - simpl in *. pose proof Hwf as (Hl & Hs & Hcap).
    destruct (push_back_spec x v Hwf) as (v1 & Hv1 & Hwf1 & Hs1 & Hc1 & Hx1 & Hg1);
      [lia|].
    rewrite Hv1. simpl.
    destruct (IH v1 Hwf1) as (v' & Hrun & Hwf' & Hs' & He' & Hc'); [lia|].
    exists v'. split_and!; try done; try lia.
    + rewrite He', (push_back_elements x v v1) by done.
      by rewrite <- app_assoc.
    + destruct (Z.eqb_spec (sz v) (cap v)); lia.
Qed.

(** X27: while the size stays within the capacity, [push_back] never
    reallocates: pushing values of the caller onto a vector that has room
    for all of them appends them and leaves the capacity as it was, as
    after a [reserve]. *)
Theorem push_back_within_capacity (xs : list T) : ∀ v,
  wf v → size v + Z.of_nat (length xs) ≤ capacity v →
  ∃ v', run (Push <$> xs) v = Ok v'
    ∧ capacity v' = capacity v
    ∧ size v' = size v + Z.of_nat (length xs)
    ∧ elements v' = elements v ++ xs.
Proof.
  unfold size, capacity. induction xs as [|x xs IH]; intros v Hwf Hroom.
  - exists v. simpl. rewrite app_nil_r. split_and!; try done. lia.
  - simpl in *. pose proof Hwf as (Hl & Hs & Hcap).
    destruct (push_back_spec x v Hwf) as (v1 & Hv1 & Hwf1 & Hs1 & Hc1 & Hx1 & Hg1);
      [lia|].
    rewrite (proj2 (Z.eqb_neq _ _)) in Hc1 by lia.
    rewrite Hv1. simpl.
    destruct (IH v1 Hwf1) as (v' & Hrun & Hc' & Hs' & He'); [lia|].
    exists v'. split_and!; try done; try lia.
    rewrite He', (push_back_elements x v v1) by done.
    by rewrite <- app_assoc.
Qed.

(** *** Element access *)

(** X9: on a non-empty vector [front()] returns the first element and
    [back()] the last one, and for every index below the size
    [operator[]] and [at] return the same element. [back()] on an empty
    vector reads the slot [t[sz - 1]] with [sz - 1] wrapped around, which
    is outside the buffer. *)
Theorem front_back_index v :
  wf v →
  (0 < size v →
     ∃ x y, elements v !! 0%nat = Some x ∧ last (elements v) = Some y
            ∧ front v = Ok x ∧ back v = Ok y)
  ∧ (∀ i, 0 ≤ i < size v →
       ∃ x, elements v !! Z.to_nat i = Some x
            ∧ index i v = Ok x ∧ (at_ i v).1 = Ok x)
  ∧ (size v = 0 → back v = Undef).
Proof.
  unfold size. intros Hwf. pose proof Hwf as (Hl & Hs & Hcap).
  pose proof (elements_length v Hwf) as Hlen. split_and!.
  - intros Hpos.
    destruct (lookup_lt_is_Some_2 (t v) 0) as [x Hx]; [lia|].
    destruct (lookup_lt_is_Some_2 (t v) (Z.to_nat (sz v - 1))) as [y Hy]; [lia|].
    exists x, y. split_and!.
    + by rewrite elements_lookup by lia.
    + rewrite last_lookup, Hlen, elements_lookup by lia.
      rewrite <- Hy. f_equal. lia.
    + unfold front. by apply load_Ok.
    + unfold back. rewrite wrap_small by lia. apply load_Ok; [lia|done].
  - intros i Hi.
    destruct (lookup_lt_is_Some_2 (t v) (Z.to_nat i)) as [x Hx]; [lia|].
    exists x. split_and!.
    + by rewrite elements_lookup by lia.
    + unfold index. apply load_Ok; [lia|done].
    + unfold at_. simpl.
      rewrite (proj2 (Z.ltb_ge _ _)), (proj2 (Z.leb_gt _ _)) by lia. simpl.
      apply load_Ok; [lia|done].
  - intros H0. unfold back, load. rewrite H0. rewrite decide_False; [done|].
    assert (wrap (0 - 1) = size_max - 1) as -> by reflexivity. lia.
Qed.

(** *** Positional removal and insertion *)

(** [erase] on a non-empty vector, slot by slot: the slots from [i] up to
    the last but one of the buffer receive their right neighbour. *)
Lemma erase_slots i v :
  wf v → 0 < sz v → 0 ≤ i ≤ cap v →
  ∃ b, erase i v = Ok (i, {| t := b; cap := cap v; sz := sz v - 1 |})
    ∧ length b = length (t v)
    ∧ ∀ m : nat, b !! m =
        if decide (i ≤ Z.of_nat m < cap v - 1) then t v !! S m else t v !! m.
Proof.
  intros Hwf Hpos Hi. pose proof Hwf as (Hl & Hs & Hcap).
  unfold erase, empty. rewrite (proj2 (Z.eqb_neq _ _)) by lia. simpl.
  destruct (while_total
    (λ st : Z * Z, st.1 = st.2 ∧ 0 ≤ st.2 ≤ i)
    (λ st, Z.to_nat (i - st.2))
    (λ st, negb (i =? st.2)) (erase_seek (cap v)))
    with (fuel := S (Z.to_nat (cap v))) (s := (0, 0))
    as ([tmp indx] & Hseek & (Htmp & Hindx) & Hexit).
  - intros [tmp indx] [Htmp Hindx] Hcond. simpl in *. subst tmp.
    apply negb_true_iff, Z.eqb_neq in Hcond.
    unfold erase_seek. rewrite decide_True by lia.
    rewrite wrap_small by lia. eexists. split; [done|]. simpl. lia.
  - simpl. lia.
  - simpl. lia.
  - simpl in *. apply negb_false_iff, Z.eqb_eq in Hexit. subst tmp indx.
    unfold iterator in *. rewrite Hseek. simpl.
    destruct (while_total
      (λ st : Z * list T,
         i ≤ st.1 ≤ Z.max i (cap v - 1) ∧ length st.2 = length (t v)
         ∧ ∀ m : nat, st.2 !! m =
             if decide (i ≤ Z.of_nat m < st.1) then t v !! S m else t v !! m)
      (λ st, Z.to_nat (cap v - 1 - st.1))
      (λ st, st.1 <? wrap (cap v - 1)) erase_shift)
      with (fuel := Z.to_nat (cap v)) (s := (i, t v))
      as ([j b] & Hshift & (Hj & Hlen & Hget) & Hexit).
    + intros [j b] (Hj & Hlen & Hget) Hcond. simpl in *.
      rewrite wrap_small in Hcond by lia. apply Z.ltb_lt in Hcond.
      unfold erase_shift. rewrite wrap_small by lia.
      destruct (lookup_lt_is_Some_2 (t v) (Z.to_nat (j + 1))) as [x Hx]; [lia|].
      rewrite (load_Ok _ _ x); [|lia|].
      2: { rewrite Hget. rewrite decide_False by lia. done. }
      simpl. rewrite store_Ok by lia. simpl.
      eexists. split; [done|]. simpl. split; [|lia].
      split_and!; try lia.
      * by rewrite length_insert.
      * intros m. destruct (decide (m = Z.to_nat j)) as [->|Hne].
        -- rewrite list_lookup_insert_eq by lia.
           rewrite decide_True by lia. rewrite <- Hx. f_equal. lia.
        -- rewrite list_lookup_insert_ne by done. rewrite Hget.
           repeat case_decide; done || lia.
    + simpl. split_and!; [lia..|done|].
      intros m. by rewrite decide_False by lia.
    + simpl. lia.
    + simpl in *. rewrite wrap_small in Hexit by lia. apply Z.ltb_ge in Hexit.
      rewrite Hshift. simpl. rewrite wrap_small by lia.
      exists b. split_and!; try done.
      intros m. rewrite Hget. repeat case_decide; done || lia.
Qed.

(** X10: [erase] at the position of an element removes this element:
    the elements after it move one place to the left, the size is
    decremented and the capacity stays. The returned iterator is the one
    passed in; its slot now holds the element that followed. *)
Theorem erase_removes i v :
  wf v → 0 ≤ i < size v →
  ∃ v', erase i v = Ok (i, v')
    ∧ size v' = size v - 1 ∧ capacity v' = capacity v
    ∧ elements v' = delete (Z.to_nat i) (elements v)
    ∧ (i + 1 < size v → index i v' = index (i + 1) v).
Proof.
  unfold size, capacity. intros Hwf Hi. pose proof Hwf as (Hl & Hs & Hcap).
  destruct (erase_slots i v Hwf) as (b & Herase & Hlen & Hget); [lia..|].
  eexists. split; [done|]. simpl. split_and!; try done.
  - unfold elements. simpl. apply list_eq. intros m.
    destruct (decide (m < Z.to_nat (sz v - 1))%nat) as [Hm|Hm].
    + rewrite lookup_take_lt by lia. rewrite Hget.
      destruct (decide (m < Z.to_nat i)%nat) as [Hmi|Hmi].
      * rewrite list_lookup_delete_lt by done.
        rewrite decide_False by lia. by rewrite lookup_take_lt by lia.
      * rewrite list_lookup_delete_ge by lia.
        rewrite decide_True by lia. by rewrite lookup_take_lt by lia.
    + rewrite lookup_take_ge by lia. symmetry.
      apply lookup_ge_None_2. rewrite length_delete.
      * rewrite length_take. lia.
      * apply lookup_lt_is_Some_2. rewrite length_take. lia.
  - intros Hnext. unfold index, load. simpl. rewrite Hlen.
    rewrite !decide_True by lia. rewrite Hget. rewrite decide_True by lia.
    replace (Z.to_nat (i + 1)) with (S (Z.to_nat i)) by lia. done.
Qed.

(** X11: [erase] on an empty vector changes nothing. On a non-empty
    vector, [erase] at [end()] or at any later position of the buffer
    removes the last element: only the size changes. *)
Theorem erase_at_end i v :
  wf v →
  (size v = 0 → erase i v = Ok (i, v))
  ∧ (0 < size v → size v ≤ i ≤ capacity v →
     ∃ v', erase i v = Ok (i, v')
       ∧ size v' = size v - 1 ∧ capacity v' = capacity v
       ∧ elements v' = take (Z.to_nat (size v - 1)) (elements v)).
Proof.
  unfold size, capacity. intros Hwf. pose proof Hwf as (Hl & Hs & Hcap). split.
  - intros H0. unfold erase, empty. by rewrite H0.
  - intros Hpos Hi.
    destruct (erase_slots i v Hwf) as (b & Herase & Hlen & Hget); [lia..|].
    eexists. split; [done|]. simpl. split_and!; try done.
    unfold elements. simpl. rewrite take_take. apply list_eq. intros m.
    destruct (decide (m < Z.to_nat (sz v - 1))%nat) as [Hm|Hm].
    + rewrite !lookup_take_lt by lia. rewrite Hget. by rewrite decide_False by lia.
    + by rewrite !lookup_take_ge by lia.
Qed.

(** X12: [insert] with room left ([size < capacity]) at a position [i]
    up to [end()] returns the iterator it was given, puts [val] in slot
    [i] and increments the size. At [end()] and before the last element
    the other elements follow in their order. Before an earlier element,
    the element formerly at [i] is moved to the end instead, and the
    elements after it stay where they were. *)
Theorem insert_with_room i val v :
  wf v → size v < capacity v → 0 ≤ i ≤ size v →
  ∃ v', insert i val v = Ok (i, v')
    ∧ size v' = size v + 1 ∧ capacity v' = capacity v
    ∧ index i v' = Ok val
    ∧ (size v - 1 ≤ i →
       elements v' = take (Z.to_nat i) (elements v)
                     ++ val :: drop (Z.to_nat i) (elements v))
    ∧ (i < size v →
       ∃ y, elements v !! Z.to_nat i = Some y
         ∧ elements v' = take (Z.to_nat i) (elements v)
                         ++ val :: drop (S (Z.to_nat i)) (elements v) ++ [y]).
Proof.
  unfold size, capacity. intros Hwf Hroom Hi. pose proof Hwf as (Hl & Hs & Hcap).
  destruct (insert_spec i val v Hwf Hroom Hi)
    as (y & v' & Hy & Hins & Hwf' & Hc' & Hs' & Ht').
  exists v'. split_and!; try done.
  - unfold index. apply load_Ok; [lia|]. rewrite Ht'.
    apply list_lookup_insert_eq.
    destruct (i <? sz v); rewrite ?length_insert; lia.
  - intros Hnear.
    destruct (insert_near_end i val v Hwf Hroom) as (v'' & Hins' & He); [lia..|].
    rewrite Hins in Hins'. by injection Hins' as <-.
  - intros Hlt.
    destruct (insert_elements i val v Hwf Hroom) as (y' & v'' & Hy' & Hins' & He);
      [lia|].
    rewrite Hins in Hins'. injection Hins' as <-. by exists y'.
Qed.

(** The conversion of a size to [int] gives at most the size. *)
Lemma to_int_le (z : Z) : 0 ≤ z → to_int z ≤ z.
Proof.
  intros Hz. unfold to_int.
  pose proof (Z.mod_le (z + 2 ^ 31) (2 ^ 32)). lia.
Qed.

(** X13: [clear()] calls [pop_back] [(int) size] times: it returns with
    the capacity unchanged and the size lowered by [(int) size], when this
    is positive. With less than [2^31] elements the vector is empty
    afterwards and every slot that was live holds [T()]. *)
Theorem clear_empties v :
  wf v →
  ∃ v', clear v = Ok v' ∧ wf v' ∧ capacity v' = capacity v
    ∧ size v' = size v - Z.max 0 (to_int (size v))
    ∧ (size v < 2 ^ 31 →
       size v' = 0 ∧ elements v' = []
       ∧ ∀ j : nat, Z.of_nat j < size v → t v' !! j = Some T_default).
Proof.
  unfold size, capacity. intros Hwf. pose proof Hwf as (Hl & Hs & Hcap).
  pose proof (to_int_le (sz v)) as Hle. unfold clear.
  destruct (while_total
    (λ st : Z * vector T,
       wf st.2 ∧ cap st.2 = cap v
       ∧ st.1 ≤ sz st.2 ∧ sz st.2 ≤ sz v
       ∧ sz st.2 - Z.max 0 st.1 = sz v - Z.max 0 (to_int (sz v))
       ∧ ∀ j : nat, sz st.2 ≤ Z.of_nat j < sz v → t st.2 !! j = Some T_default)
    (λ st, Z.to_nat st.1)
    (λ st, 0 <? st.1) (λ st, v' ← pop_back st.2; Ok (st.1 - 1, v')))
    with (fuel := Z.to_nat (to_int (sz v))) (s := (to_int (sz v), v))
    as ([k v'] & Hloop & (Hwf' & Hc' & Hk & Hsz & Hs' & Hget) & Hexit).
  - intros [k w] (Hwfw & Hcw & Hk & Hsw & Hs' & Hget) Hcond. simpl in *.
    apply Z.ltb_lt in Hcond. pose proof Hwfw as (Hlw & Hszw & Hcapw).
    rewrite (pop_back_slots w Hwfw) by lia. simpl.
    eexists. split; [done|]. simpl. split; [|lia].
    split_and!; try lia.
    + unfold wf. simpl. rewrite length_insert. lia.
    + intros j Hj. destruct (decide (j = Z.to_nat (sz w - 1))) as [->|Hne].
      * apply list_lookup_insert_eq. lia.
      * rewrite list_lookup_insert_ne by done. apply Hget. lia.
  - simpl. split_and!; try done; try lia.
  - simpl. lia.
  - simpl in *. apply Z.ltb_ge in Hexit. rewrite Hloop. simpl.
    exists v'. split_and!; try done; try lia.
    intros Hsmall.
    assert (to_int (sz v) = sz v) as Hto.
    { unfold to_int. rewrite Z.mod_small; lia. }
    assert (sz v' = 0) as H0 by lia.
    split_and!; [done| |].
    + unfold elements. by rewrite H0.
    + intros j Hj. apply Hget. lia.
Qed.

End vector_more.

(** *** Instances on vectors of [Z] *)

Lemma create_fills_witness :
  ∃ v, create 3 7 = Ok v ∧ wf v ∧ size v = 3 ∧ capacity v = Z.max 10 (2 * 3)
       ∧ elements v = replicate (Z.to_nat 3) 7.
Proof. apply create_fills; [lia|unfold size_max; lia]. Defined.

Lemma copy_equal_witness : copy v123 = Ok v123.
Proof. apply copy_equal. concrete_wf. Defined.

(** The assignment of [1, 2, 3] to a full vector, for an [int] whose
    fresh arrays hold values other than 0: slot 3 is not 0. *)
Lemma assign_copies_witness :
  ∃ v', @assign Z Z_uninitialised (Some v123) vfull = Ok v'
        ∧ size v' = 3 ∧ capacity v' = 10
        ∧ elements v' = [1; 2; 3] ∧ t v' !! 3%nat = Some (-4).
Proof.
  destruct (@assign_copies Z Z_uninitialised v123 vfull)
    as (v' & Ha & _ & Hs & Hc & He & Hslack); [concrete_wf|].
  exists v'. split_and!; [exact Ha|exact Hs|exact Hc|exact He|].
  apply (Hslack 3%nat). cbn. lia.
Defined.

Lemma reserve_keeps_elements_witness :
  ∃ v', reserve 25 v123 = Ok v' ∧ capacity v' = 25 ∧ size v' = 3
        ∧ elements v' = [1; 2; 3].
Proof.
  destruct (reserve_keeps_elements 25 v123) as (v' & Hr & _ & Hc & Hs & He);
    [concrete_wf|unfold size_max; lia|].
  exists v'. split_and!; [exact Hr|exact Hc|exact Hs|exact He].
Defined.

Lemma vector_push_back_appends_witness :
  (∃ v1 v2, push_back (Obj 5) vfull = Ok v1
     ∧ push_back_incremental (Obj 5) vfull = Ok v2
     ∧ elements v1 = elements vfull ++ [5]
     ∧ elements v2 = elements vfull ++ [5]
     ∧ back v1 = Ok 5 ∧ back v2 = Ok 5)
  ∧ (push_back (Slot 0) vfull = Undef
     ∧ push_back_incremental (Slot 0) vfull = Undef)
  ∧ (push_back (Slot 0) v123 = push_back (Obj 1) v123
     ∧ push_back_incremental (Slot 0) v123
       = push_back_incremental (Obj 1) v123).
Proof.
  destruct (vector_push_back_appends 5 vfull) as [Hobj Hfull];
    [concrete_wf|intros _; cbn; unfold size_max; lia|].
  destruct (vector_push_back_appends 5 v123) as [_ Hroom];
    [concrete_wf|intros _; cbn; unfold size_max; lia|].
  split; [exact Hobj|].
  split; [exact (Hfull 0%nat 7 eq_refl)|exact (Hroom 0%nat 1 eq_refl)].
Defined.

Lemma pop_back_removes_last_witness :
  ∃ v', pop_back v123 = Ok v' ∧ capacity v' = 10 ∧ elements v' = [1; 2]
        ∧ t v' !! 2%nat = Some 0.
Proof.
  destruct (pop_back_removes_last v123) as [_ Hpop]; [concrete_wf|].
  destruct Hpop as (v' & Hp & Hc & He & Hslot); [cbn; lia|].
  exists v'. split_and!; [exact Hp|exact Hc|exact He|exact Hslot].
Defined.

Lemma push_back_pop_back_witness :
  ∃ v1 v2, push_back (Obj 5) vfull = Ok v1 ∧ pop_back v1 = Ok v2
    ∧ size v2 = 10 ∧ elements v2 = elements vfull ∧ capacity v2 = capacity v1
    ∧ t v2 !! 10%nat = Some 0.
Proof.
  refine (push_back_pop_back 5 vfull _ _); [concrete_wf|].
  intros _. cbn. unfold size_max. lia.
Defined.

Lemma push_back_sequence_witness :
  ∃ v', run (Push <$> [4; 5]) v123 = Ok v' ∧ size v' = 5
        ∧ elements v' = [1; 2; 3; 4; 5].
Proof.
  destruct (push_back_sequence [4; 5] v123) as (v' & Hr & _ & Hs & He & _);
    [concrete_wf|cbn; unfold size_max; lia|].
  exists v'. split_and!; [exact Hr|exact Hs|exact He].
Defined.

Lemma push_back_within_capacity_witness :
  ∃ v', run (Push <$> [4; 5]) v123 = Ok v' ∧ capacity v' = 10 ∧ size v' = 5
        ∧ elements v' = [1; 2; 3; 4; 5].
Proof. apply (push_back_within_capacity [4; 5] v123); [concrete_wf|cbn; lia]. Defined.

Lemma front_back_index_witness :
  (∃ x y, elements v123 !! 0%nat = Some x ∧ last (elements v123) = Some y
          ∧ front v123 = Ok x ∧ back v123 = Ok y)
  ∧ ∃ x, elements v123 !! 1%nat = Some x ∧ index 1 v123 = Ok x
         ∧ (at_ 1 v123).1 = Ok x.
Proof.
  destruct (front_back_index v123) as (Hfb & Hidx & _); [concrete_wf|].
  split; [apply Hfb; cbn; lia|apply (Hidx 1); cbn; lia].
Defined.

Lemma erase_removes_witness :
  ∃ v', erase 1 v123 = Ok (1, v') ∧ size v' = 2 ∧ capacity v' = 10
        ∧ elements v' = [1; 3] ∧ index 1 v' = index 2 v123.
Proof.
  destruct (erase_removes 1 v123) as (v' & He & Hs & Hc & Hel & Hnext);
    [concrete_wf|cbn; lia|].
  exists v'. split_and!; [exact He|exact Hs|exact Hc|exact Hel|].
  apply Hnext. cbn. lia.
Defined.

Lemma erase_at_end_witness :
  ∃ v', erase 3 v123 = Ok (3, v') ∧ size v' = 2 ∧ capacity v' = 10
        ∧ elements v' = [1; 2].
Proof.
  destruct (erase_at_end 3 v123) as [_ Hend]; [concrete_wf|].
  apply Hend; cbn; lia.
Defined.

Lemma insert_with_room_witness :
  ∃ v', insert 0 9 v123 = Ok (0, v') ∧ size v' = 4 ∧ index 0 v' = Ok 9
        ∧ elements v' = [9; 2; 3; 1].
Proof.
  destruct (insert_with_room 0 9 v123) as (v' & Hi & Hs & _ & Hx & _ & Hmove);
    [concrete_wf|cbn; lia|cbn; lia|].
  destruct Hmove as (y & Hy & He); [cbn; lia|].
  exists v'. split_and!; [exact Hi|exact Hs|exact Hx|].
  injection Hy as <-. exact He.
Defined.

Lemma clear_empties_witness :
  ∃ v', clear v123 = Ok v' ∧ capacity v' = 10 ∧ size v' = 0
        ∧ elements v' = [] ∧ t v' !! 2%nat = Some 0.
Proof.
  destruct (clear_empties v123) as (v' & Hc & _ & Hcap & _ & Hsmall);
    [concrete_wf|].
  destruct Hsmall as (Hs & He & Hslots); [cbn; lia|].
  exists v'. split_and!; [exact Hc|exact Hcap|exact Hs|exact He|].
  apply Hslots. cbn. lia.
Defined.

End vector_more.

(** ** list.h: contents, round trips and iterators *)

Module list_more.
Import list_ list_proofs.
Section list_more.
Context {T : Type} `{DefaultConstructible T}.
Implicit Types (l : list_ T) (h : gmap positive (node T)).
Implicit Types (ls : list positive) (vs : list T) (a : positive) (p : ptr).
Implicit Types (val x : T) (nd : node T).

(** A chain and its values determine the list: its nodes, [head], [tail]
    and [sz]. *)
Lemma is_list_unique l l' ls vs : is_list l ls vs → is_list l' ls vs → l = l'.
Proof.
  intros [Hnd [Hlen Hch] Hdom Hhd Htl Hsz _] [_ [_ Hch'] Hdom' Hhd' Htl' Hsz' _].
  destruct l as [m hd tl n], l' as [m' hd' tl' n']. simpl in *.
  f_equal; try congruence.
  apply map_eq. intros a. destruct (decide (a ∈ ls)) as [Hin|Hout].
  - apply list_elem_of_lookup_1 in Hin as [i Hi].
    destruct (Hch i a Hi) as (x & Hx & ->).
    destruct (Hch' i a Hi) as (x' & Hx' & ->). congruence.
  - rewrite (proj1 (not_elem_of_dom m a)), (proj1 (not_elem_of_dom m' a)); [done|..].
    + by rewrite Hdom', elem_of_list_to_set.
    + by rewrite Hdom, elem_of_list_to_set.
Qed.

Lemma is_list_front l ls vs :
  is_list l ls vs → front l = from_option Ok Undef (vs !! 0%nat).
Proof.
  intros [_ [Hlen Hch] _ Hhd _ _ _]. unfold front. rewrite Hhd.
  destruct ls as [|a ls]; destruct vs as [|x vs]; try done. simpl.
  destruct (Hch 0%nat a eq_refl) as (x' & [= <-] & ->). done.
Qed.

Lemma is_list_back l ls vs :
  is_list l ls vs → back l = from_option Ok Undef (last vs).
Proof.
  intros [_ [Hlen Hch] _ _ Htl _ _]. unfold back. rewrite Htl.
  rewrite !last_lookup, Hlen.
  destruct (ls !! Nat.pred (length ls)) as [a|] eqn:Ha.
  - destruct (Hch _ a Ha) as (x & -> & Hnode). simpl. by rewrite Hnode.
  - apply lookup_ge_None_1 in Ha.
    rewrite (lookup_ge_None_2 vs) by lia. done.
Qed.

(** *** Element access *)

(** X14: on a list in its invariant [front()] returns the first element
    and [back()] the last one; on an empty list both dereference a null
    pointer. *)
Theorem front_back_ends l ls vs :
  is_list l ls vs →
  front l = from_option Ok Undef (vs !! 0%nat)
  ∧ back l = from_option Ok Undef (last vs)
  ∧ (size l = 0 → front l = Undef ∧ back l = Undef).
Proof.
  intros Hl. pose proof (is_list_front _ _ _ Hl) as Hf.
  pose proof (is_list_back _ _ _ Hl) as Hb. split_and!; [done..|].
  unfold size. intros H0. pose proof (is_list_sz _ _ _ Hl).
  pose proof (is_list_length _ _ _ Hl).
  destruct vs; [|simpl in *; lia]. by rewrite Hf, Hb.
Qed.

(** *** Both ends *)

(** X15: [push_front] puts [val] before the elements: the traversal
    from [head] gives [val] and then the former elements, [front()]
    returns [val], the size is incremented and the invariant is kept. *)
Theorem push_front_prepends val l ls vs :
  is_list l ls vs → size l + 1 < size_max →
  ∃ l', push_front val l = Ok l'
    ∧ size l' = size l + 1
    ∧ to_list l' = Ok (val :: vs)
    ∧ front l' = Ok val
    ∧ invariant l'.
Proof.
  unfold size. intros Hl Hmax.
  destruct (list_push_front_spec val l ls vs Hl Hmax) as (l' & Hp & Hl' & Hs).
  exists l'. split_and!; try done.
  - by apply (is_list_to_list _ _ _ Hl').
  - by rewrite (is_list_front _ _ _ Hl').
  - by eapply is_list_invariant.
Qed.

(** X16: [push_back] puts [val] after the elements: the traversal from
    [head] gives the former elements and then [val], [back()] returns
    [val], the size is incremented and the invariant is kept. *)
Theorem list_push_back_appends val l ls vs :
  is_list l ls vs → size l + 1 < size_max →
  ∃ l', push_back val l = Ok l'
    ∧ size l' = size l + 1
    ∧ to_list l' = Ok (vs ++ [val])
    ∧ back l' = Ok val
    ∧ invariant l'.
Proof.
  unfold size. intros Hl Hmax.
  destruct (list_push_back_spec val l ls vs Hl Hmax) as (l' & Hp & Hl' & Hs).
  exists l'. split_and!; try done.
  - by apply (is_list_to_list _ _ _ Hl').
  - by rewrite (is_list_back _ _ _ Hl'), last_snoc.
  - by eapply is_list_invariant.
Qed.

(** [pop_front] in general: all but the first node and value remain. *)
Lemma list_pop_front_spec l ls vs :
  is_list l ls vs →
  ∃ l', pop_front l = Ok l' ∧ is_list l' (drop 1 ls) (drop 1 vs).
Proof.
  intros Hl. pose proof (is_list_length _ _ _ Hl).
  destruct ls as [|a ls]; destruct vs as [|x vs]; try done.
  - exists l. split; [by apply list_pop_front_nil|done].
  - destruct (list_pop_front_cons l a ls x vs Hl) as (l' & Hp & Hl' & _).
    by exists l'.
Qed.

(** X17: [pop_front] on an empty list changes nothing; otherwise it
    removes the first element, and the invariant is kept. *)
Theorem pop_front_removes_first l ls vs :
  is_list l ls vs →
  ∃ l', pop_front l = Ok l'
    ∧ to_list l' = Ok (drop 1 vs)
    ∧ size l' = Z.of_nat (length (drop 1 vs))
    ∧ (size l = 0 → l' = l)
    ∧ invariant l'.
Proof.
  unfold size. intros Hl.
  destruct (list_pop_front_spec l ls vs Hl) as (l' & Hp & Hl').
  exists l'. split_and!; try done.
  - by apply (is_list_to_list _ _ _ Hl').
  - rewrite (is_list_sz _ _ _ Hl'), (is_list_length _ _ _ Hl'). done.
  - intros H0. unfold pop_front, empty in Hp. rewrite H0 in Hp. simpl in Hp.
    by injection Hp.
  - by eapply is_list_invariant.
Qed.

(** X18: [push_front] followed by [pop_front], and [push_back] followed
    by [pop_back], give back the list as it was: the same nodes with the
    same links, [head], [tail] and size, and the added node is freed. *)
Theorem push_pop_restores val l ls vs :
  is_list l ls vs → size l + 1 < size_max →
  (∃ l1, push_front val l = Ok l1 ∧ pop_front l1 = Ok l)
  ∧ (∃ l1, push_back val l = Ok l1 ∧ pop_back l1 = Ok l).
Proof.
  unfold size. intros Hl Hmax. split.
  - destruct (list_push_front_spec val l ls vs Hl Hmax) as (l1 & Hp & Hl1 & _).
    destruct (list_pop_front_cons l1 _ ls val vs Hl1) as (l2 & Hq & Hl2 & _).
    exists l1. split; [done|]. by rewrite Hq, (is_list_unique l2 l ls vs).
  - destruct (list_push_back_spec val l ls vs Hl Hmax) as (l1 & Hp & Hl1 & _).
    destruct (list_pop_back_snoc l1 ls _ vs val Hl1) as (l2 & Hq & Hl2 & _).
    exists l1. split; [done|]. by rewrite Hq, (is_list_unique l2 l ls vs).
Qed.

(** *** Positional insertion and removal *)

(** X19: [insert] before the element at position [k], with [k = 0] for
    [begin()] and [k = size] for [end()], puts [val] at position [k] and
    keeps the other elements in their order, at every position. It returns
    the iterator it was given, which refers to the same element as before
    (now at position [k + 1]) and not to the new one. *)
Theorem insert_at val l ls vs (k : nat) :
  is_list l ls vs → (k ≤ length ls)%nat → size l + 1 < size_max →
  ∃ l', insert (ls !! k) val l = Ok (ls !! k, l')
    ∧ size l' = size l + 1
    ∧ to_list l' = Ok (take k vs ++ val :: drop k vs)
    ∧ (∀ x, vs !! k = Some x →
         star (mem l) (ls !! k) = Ok x ∧ star (mem l') (ls !! k) = Ok x)
    ∧ invariant l'.
Proof.
  unfold size. intros Hl Hk Hmax. pose proof (is_list_length _ _ _ Hl) as Hlen.
  destruct (list_insert_spec k val l ls vs Hl Hk Hmax) as (l' & Hi & Hl' & Hs).
  exists l'. split_and!; try done.
  - by apply (is_list_to_list _ _ _ Hl').
  - intros x Hx. pose proof (lookup_lt_Some _ _ _ Hx) as Hlt.
    destruct (lookup_lt_is_Some_2 ls k) as [a Ha]; [lia|]. rewrite Ha.
    destruct (is_list_chain _ _ _ Hl) as [_ Hch].
    destruct (is_list_chain _ _ _ Hl') as [_ Hch'].
    destruct (Hch k a Ha) as (x1 & Hx1 & Hn1).
    destruct (Hch' (S k) a) as (x2 & Hx2 & Hn2).
    { rewrite lookup_app_r by (rewrite length_take; lia).
      rewrite length_take. replace (S k - k `min` length ls)%nat with 1%nat by lia.
      simpl. rewrite lookup_drop, Nat.add_0_r. done. }
    rewrite lookup_app_r in Hx2 by (rewrite length_take; lia).
    rewrite length_take in Hx2.
    replace (S k - k `min` length vs)%nat with 1%nat in Hx2 by lia.
    simpl in Hx2. rewrite lookup_drop, Nat.add_0_r in Hx2.
    unfold star. simpl. rewrite Hn1, Hn2. simpl. split; congruence.
  - by eapply is_list_invariant.
Qed.

(** X20: [erase] at the first node, or at a node that has a predecessor
    and a successor, removes the element at this position, decrements the
    size and keeps the invariant. The iterator it returns is the one it was
    given: it refers to the freed node. *)
Theorem erase_at l ls vs (k : nat) :
  is_list l ls vs → (k < length ls)%nat → (k = 0 ∨ S k < length ls)%nat →
  ∃ l', erase (ls !! k) l = Ok (ls !! k, l')
    ∧ size l' = size l - 1
    ∧ to_list l' = Ok (delete k vs)
    ∧ deref (mem l') (ls !! k) = Undef
    ∧ invariant l'.
Proof.
  unfold size. intros Hl Hk Hpos.
  destruct (list_erase_spec k l ls vs Hl Hk Hpos) as (l' & He & Hl' & Hs).
  exists l'. split_and!; try done.
  - by apply (is_list_to_list _ _ _ Hl').
  - destruct (lookup_lt_is_Some_2 ls k) as [a Ha]; [lia|]. rewrite Ha. simpl.
    assert (mem l' !! a = None) as ->; [|done].
    apply not_elem_of_dom. rewrite (is_list_dom _ _ _ Hl'), elem_of_list_to_set.
    pose proof (is_list_nodup _ _ _ Hl) as Hnd.
    rewrite <- (take_drop_middle ls k a Ha) in Hnd.
    apply NoDup_app in Hnd as (_ & Hdisj & [Hnotin _]%NoDup_cons).
    rewrite delete_take_drop. intros [Hin|Hin]%elem_of_app; [|done].
    apply (Hdisj a Hin). by left.
  - by eapply is_list_invariant.
Qed.

(** X21: [erase] at the last node of a list of two or more elements has
    no defined result. The iterator refers to an element and equals
    neither [begin()] nor [end()], so that the general branch runs and
    dereferences the null [next] of the node. *)
Theorem erase_at_last_node l ls vs :
  is_list l ls vs → (2 ≤ length ls)%nat →
  erase (last ls) l = Undef
  ∧ is_Some (last ls) ∧ last ls ≠ begin_ l ∧ last ls ≠ end_ l.
Proof.
  intros Hl Hlen. destruct (snoc_inv ls) as (ls0 & a & ->); [lia|].
  rewrite length_app in Hlen. simpl in Hlen. rewrite last_snoc.
  assert (ls0 ≠ []) as Hne by (intros ->; simpl in *; lia).
  split_and!; [by eapply list_erase_last_undefined|done| |done].
  unfold begin_. rewrite (is_list_head _ _ _ Hl).
  intros Heq. symmetry in Heq.
  assert ((ls0 ++ [a]) !! length ls0 = Some a) as Ha.
  { by rewrite lookup_app_r, Nat.sub_diag by lia. }
  pose proof (NoDup_lookup _ _ _ _ (is_list_nodup _ _ _ Hl) Heq Ha). lia.
Qed.

(** *** Removing everything *)

(** X22: [clear()] returns only on an empty list, which it leaves
    unchanged. On a non-empty list it increments an iterator to the node
    that [pop_front] has just freed, and so does every assignment to a
    non-empty list, which starts with [clear()]. *)
Theorem clear_defined_on_empty_only l ls vs :
  is_list l ls vs →
  (size l = 0 → clear l = Ok l)
  ∧ (size l ≠ 0 → clear l = Undef ∧ ∀ rhs, assign rhs l = Undef).
Proof.
  unfold size. intros Hl. pose proof (is_list_sz _ _ _ Hl) as Hsz.
  pose proof (is_list_length _ _ _ Hl) as Hlen. split.
  - intros H0. destruct ls; [|simpl in *; lia].
    unfold clear. rewrite (is_list_head _ _ _ Hl). done.
  - intros Hne. destruct ls as [|a ls]; [simpl in *; lia|].
    destruct vs as [|x vs]; [done|]. split.
    + by eapply list_clear_undefined.
    + intros rhs. by eapply list_assign_undefined.
Qed.

(** X23: the destructor pops until the list is empty: it returns with no
    node left allocated, [head] and [tail] null and size 0. *)
Theorem destroy_frees_all l ls vs :
  is_list l ls vs →
  destroy l = Ok {| mem := ∅; head := None; tail := None; sz := 0 |}.
Proof.
  intros Hl. pose proof (is_list_sz _ _ _ Hl) as Hsz. unfold destroy.
  destruct (while_total
    (λ s, ∃ ls' vs', is_list s ls' vs')
    (λ s, Z.to_nat (sz s)) (λ l, 0 <? sz l) pop_front)
    with (fuel := Z.to_nat (sz l)) (s := l)
    as (l' & Hloop & (ls' & vs' & Hl') & Hexit).
  - intros s (ls1 & vs1 & Hs) Hcond. apply Z.ltb_lt in Hcond.
    pose proof (is_list_sz _ _ _ Hs) as Hszs.
    pose proof (is_list_length _ _ _ Hs) as Hlens.
    destruct ls1 as [|a ls1]; [simpl in *; lia|].
    destruct vs1 as [|x vs1]; [done|].
    destruct (list_pop_front_cons s a ls1 x vs1 Hs) as (s' & -> & Hs' & Hsz').
    exists s'. split_and!; [done|eauto|lia].
  - eauto.
  - lia.
  - rewrite Hloop. f_equal. apply Z.ltb_ge in Hexit.
    pose proof (is_list_sz _ _ _ Hl') as Hsz'.
    pose proof (is_list_length _ _ _ Hl') as Hlen'.
    destruct ls'; [|simpl in *; lia]. destruct vs'; [|done].
    apply (is_list_unique _ _ [] []); [done|apply is_list_nil].
Qed.

(** X28: [resize(0)] pops every element: it returns the empty list,
    with no node left allocated. *)
Theorem resize_zero_empties val l ls vs :
  is_list l ls vs →
  resize 0 val l = Ok {| mem := ∅; head := None; tail := None; sz := 0 |}.
Proof.
  intros Hl. pose proof (is_list_sz _ _ _ Hl) as Hsz.
  destruct (list_resize_spec 0 val l ls vs Hl) as (l' & ls' & Hr & Hl' & Hs');
    [unfold size_max; lia|].
  rewrite Hr. f_equal. simpl in Hl'.
  replace (Z.to_nat (0 - sz l)) with 0%nat in Hl' by lia. simpl in Hl'.
  pose proof (is_list_length _ _ _ Hl') as Hlen'.
  destruct ls'; [|done].
  apply (is_list_unique _ _ [] []); [done|apply is_list_nil].
Qed.

(** *** Construction and copies *)

(** X24: the constructor [list(n, val)] returns a list of [n] elements
    [val], in its invariant. *)
Theorem create_replicates n val :
  0 ≤ n < size_max →
  ∃ l, create n val = Ok l ∧ size l = n
       ∧ to_list l = Ok (replicate (Z.to_nat n) val) ∧ invariant l.
Proof.
  unfold size. intros Hn.
  destruct (list_create_spec n val) as (l & ls & Hc & Hl & Hs); [lia|].
  exists l. split_and!; [done|lia| |].
  - by apply (is_list_to_list _ _ _ Hl).
  - by eapply is_list_invariant.
Qed.

(** X25: the copy constructor returns a list with the same elements in
    the same order and the same size, in its invariant. An assignment to
    an empty list is the same computation as the copy constructor. *)
Theorem copy_same_elements v l ls vs :
  is_list v ls vs → is_list l [] [] →
  ∃ l', copy v = Ok l' ∧ assign (Some v) l = Ok l'
    ∧ size l' = size v ∧ to_list l' = Ok vs ∧ to_list v = Ok vs
    ∧ invariant l'.
Proof.
  unfold size. intros Hv Hl.
  destruct (list_copy_spec v ls vs Hv) as (l' & ls' & Hc & Hl' & Hs).
  exists l'. split_and!; try done.
  - rewrite (is_list_unique l _ [] [] Hl is_list_nil).
    unfold assign, clear. simpl. exact Hc.
  - by apply (is_list_to_list _ _ _ Hl').
  - by apply (is_list_to_list _ _ _ Hv).
  - by eapply is_list_invariant.
Qed.

(** *** Iterators *)

Lemma advance_chain l ls vs :
  is_list l ls vs →
  ∀ (n k : nat), (k + n ≤ length ls)%nat →
    advance (mem l) n (ls !! k) = Ok (ls !! (k + n)%nat).
Proof.
  intros Hl. destruct (is_list_chain _ _ _ Hl) as [_ Hch].
  induction n as [|n IH]; intros k Hk; simpl.
  - by rewrite Nat.add_0_r.
  - destruct (lookup_lt_is_Some_2 ls k) as [a Ha]; [lia|].
    destruct (Hch k a Ha) as (x & _ & Hnode).
    rewrite Ha. unfold incr. simpl. rewrite Hnode. simpl.
    rewrite IH by lia. do 2 f_equal. lia.
Qed.

(** X26: from [begin()], [k] increments reach the element at position
    [k], and [size] increments reach [end()]: one more is a null
    dereference. A decrement takes the iterator at position [k + 1] back to
    position [k]; a decrement of [end()] is a null dereference too, it does
    not give the last element. *)
Theorem iterator_walk l ls vs :
  is_list l ls vs →
  (∀ k : nat, (k ≤ length ls)%nat →
     advance (mem l) k (begin_ l) = Ok (ls !! k)
     ∧ star (mem l) (ls !! k) = from_option Ok Undef (vs !! k))
  ∧ advance (mem l) (length ls) (begin_ l) = Ok (end_ l)
  ∧ advance (mem l) (S (length ls)) (begin_ l) = Undef
  ∧ (∀ k : nat, (S k < length ls)%nat → decr (mem l) (ls !! S k) = Ok (ls !! k))
  ∧ decr (mem l) (end_ l) = Undef.
Proof.
  intros Hl. pose proof (is_list_length _ _ _ Hl) as Hlen.
  destruct (is_list_chain _ _ _ Hl) as [_ Hch].
  assert (∀ k : nat, (k ≤ length ls)%nat →
            advance (mem l) k (begin_ l) = Ok (ls !! k)) as Hadv.
  { intros k Hk. unfold begin_. rewrite (is_list_head _ _ _ Hl).
    by rewrite (advance_chain l ls vs Hl k 0). }
  split_and!.
  - intros k Hk. split; [by apply Hadv|]. unfold star.
    destruct (ls !! k) as [a|] eqn:Ha.
    + destruct (Hch k a Ha) as (x & -> & Hnode). simpl. by rewrite Hnode.
    + apply lookup_ge_None_1 in Ha. by rewrite (lookup_ge_None_2 vs) by lia.
  - rewrite Hadv by lia. by rewrite lookup_ge_None_2 by lia.
  - assert (∀ n it it', advance (mem l) n it = Ok it' →
              advance (mem l) (S n) it = incr (mem l) it') as Hsnoc.
    { induction n as [|n IH]; intros it it' Hn; simpl in *.
      - injection Hn as ->. by destruct (incr (mem l) it').
      - destruct (incr (mem l) it) as [it1| | |]; simpl in *; try done.
        by apply IH. }
    rewrite (Hsnoc _ _ _ (Hadv (length ls) (Nat.le_refl _))).
    by rewrite lookup_ge_None_2 by lia.
  - intros k Hk. destruct (lookup_lt_is_Some_2 ls (S k)) as [a Ha]; [lia|].
    destruct (Hch (S k) a Ha) as (x & _ & Hnode).
    rewrite Ha. unfold decr. simpl. by rewrite Hnode.
  - done.
Qed.

End list_more.

(** *** Instances on the list [10, 20, 30] *)

Ltac l123_room := cbn; unfold size_max; lia.

Lemma front_back_ends_witness : front l123 = Ok 10 ∧ back l123 = Ok 30.
Proof.
  destruct (front_back_ends l123 _ _ l123_is_list) as (Hf & Hb & _).
  split; [exact Hf|exact Hb].
Defined.

Lemma push_front_prepends_witness :
  ∃ l', push_front 5 l123 = Ok l' ∧ size l' = 4
    ∧ to_list l' = Ok [5; 10; 20; 30] ∧ front l' = Ok 5 ∧ invariant l'.
Proof. apply (push_front_prepends 5 l123 _ _ l123_is_list). l123_room. Defined.

Lemma list_push_back_appends_witness :
  ∃ l', push_back 40 l123 = Ok l' ∧ size l' = 4
    ∧ to_list l' = Ok [10; 20; 30; 40] ∧ back l' = Ok 40 ∧ invariant l'.
Proof. apply (list_push_back_appends 40 l123 _ _ l123_is_list). l123_room. Defined.

Lemma pop_front_removes_first_witness :
  ∃ l', pop_front l123 = Ok l' ∧ to_list l' = Ok [20; 30] ∧ size l' = 2
    ∧ invariant l'.
Proof.
  destruct (pop_front_removes_first l123 _ _ l123_is_list)
    as (l' & Hp & Ht & Hs & _ & Hinv).
  exists l'. split_and!; [exact Hp|exact Ht|exact Hs|exact Hinv].
Defined.

Lemma push_pop_restores_witness :
  (∃ l1, push_front 5 l123 = Ok l1 ∧ pop_front l1 = Ok l123)
  ∧ (∃ l1, push_back 5 l123 = Ok l1 ∧ pop_back l1 = Ok l123).
Proof. apply (push_pop_restores 5 l123 _ _ l123_is_list). l123_room. Defined.

Lemma insert_at_witness :
  ∃ l', insert (Some 2%positive) 15 l123 = Ok (Some 2%positive, l')
    ∧ size l' = 4 ∧ to_list l' = Ok [10; 15; 20; 30]
    ∧ star (mem l') (Some 2%positive) = Ok 20 ∧ invariant l'.
Proof.
  destruct (insert_at 15 l123 _ _ 1 l123_is_list)
    as (l' & Hi & Hs & Ht & Hstar & Hinv); [cbn; lia|l123_room|].
  exists l'. split_and!; [exact Hi|exact Hs|exact Ht| |exact Hinv].
  apply (Hstar 20). reflexivity.
Defined.

Lemma erase_at_witness :
  ∃ l', erase (Some 2%positive) l123 = Ok (Some 2%positive, l')
    ∧ size l' = 2 ∧ to_list l' = Ok [10; 30]
    ∧ deref (mem l') (Some 2%positive) = Undef ∧ invariant l'.
Proof.
  apply (erase_at l123 _ _ 1 l123_is_list); [cbn; lia|right; cbn; lia].
Defined.

Lemma erase_at_last_node_witness :
  erase (Some 3%positive) l123 = Undef
  ∧ Some 3%positive ≠ begin_ l123 ∧ Some 3%positive ≠ end_ l123.
Proof.
  destruct (erase_at_last_node l123 _ _ l123_is_list) as (He & _ & Hb & Hend);
    [cbn; lia|].
  split_and!; [exact He|exact Hb|exact Hend].
Defined.

Lemma clear_defined_on_empty_only_witness :
  clear l123 = Undef ∧ assign (Some l13) l123 = Undef
  ∧ clear {| mem := ∅; head := None; tail := None; sz := 0 |}
    = Ok {| mem := ∅; head := None; tail := None; sz := 0 |} :> outcome (list_ Z).
Proof.
  destruct (clear_defined_on_empty_only l123 _ _ l123_is_list) as [_ Hne].
  destruct Hne as [Hc Ha]; [discriminate|].
  destruct (clear_defined_on_empty_only _ _ _ (@is_list_nil Z)) as [He _].
  split_and!; [exact Hc|apply Ha|apply He; reflexivity].
Defined.

Lemma destroy_frees_all_witness :
  destroy l123 = Ok {| mem := ∅; head := None; tail := None; sz := 0 |}.
Proof. apply (destroy_frees_all l123 _ _ l123_is_list). Defined.

Lemma resize_zero_empties_witness :
  resize 0 7 l123 = Ok {| mem := ∅; head := None; tail := None; sz := 0 |}.
Proof. apply (resize_zero_empties 7 l123 _ _ l123_is_list). Defined.

Lemma create_replicates_witness :
  ∃ l, create 3 7 = Ok l ∧ size l = 3 ∧ to_list l = Ok [7; 7; 7] ∧ invariant l.
Proof. apply (create_replicates 3 7). unfold size_max. lia. Defined.

Lemma copy_same_elements_witness :
  ∃ l', copy l123 = Ok l'
    ∧ assign (Some l123) {| mem := ∅; head := None; tail := None; sz := 0 |}
      = Ok l'
    ∧ size l' = 3 ∧ to_list l' = Ok [10; 20; 30] ∧ invariant l'.
Proof.
  destruct (copy_same_elements l123 _ _ _ l123_is_list (@is_list_nil Z))
    as (l' & Hc & Ha & Hs & Ht & _ & Hinv).
  exists l'. split_and!; [exact Hc|exact Ha|exact Hs|exact Ht|exact Hinv].
Defined.

Lemma iterator_walk_witness :
  advance (mem l123) 2 (begin_ l123) = Ok (Some 3%positive)
  ∧ star (mem l123) (Some 3%positive) = Ok 30
  ∧ advance (mem l123) 3 (begin_ l123) = Ok (end_ l123)
  ∧ advance (mem l123) 4 (begin_ l123) = Undef
  ∧ decr (mem l123) (Some 3%positive) = Ok (Some 2%positive)
  ∧ decr (mem l123) (end_ l123) = Undef.
Proof.
  destruct (iterator_walk l123 _ _ l123_is_list)
    as (Hadv & Hend & Hpast & Hdecr & Hdecr_end).
  destruct (Hadv 2%nat) as [Ha Hs]; [cbn; lia|].
  split_and!; [exact Ha|exact Hs|exact Hend|exact Hpast| |exact Hdecr_end].
  apply (Hdecr 1%nat). cbn. lia.
Defined.

End list_more.
